(** * Expression evaluation of the SQL proxy: AST-to-script translation and
      the memoized compilation cache (package [function]).

    The development follows the Go source function by function.  A
    [strings.Builder] is append-only, so it is modelled by the text written so
    far; every translator function takes the builder and returns the builder
    after the call together with how the call ended (nil error, an error, or a
    panic).  The AST package, the comparison package, [misc.Escape] and the
    script engine are collaborators whose code is not part of this package;
    what the translator calls on them is gathered in the class [AstApi]. *)

From stdpp Require Import gmap list.
From Stdlib Require Import ZArith Ascii String List DecimalString Bool Lia.
From Stdlib Require Import DecimalN.
Import ListNotations.
Open Scope string_scope.

(** ** Errors, panics and results *)

(** Go [error] values met in this package.  [ErrCannotEvalWithColumnName] is
    the package-level sentinel; [errors.New]/[errors.Errorf] allocate a fresh
    value carrying a message; [errors.WithStack] wraps its cause in a new
    value. *)
Inductive error : Type :=
| ErrCannotEvalWithColumnName
| ErrNew (msg : string)
| ErrWithStack (cause : error).

(** The two ways the translator panics: the explicit [panic("unreachable")]
    and the run-time panic of a failed unchecked type assertion [x.(T)]. *)
Inductive panic : Type :=
| PanicUnreachable
| PanicTypeAssertion.

(** How a call returning [error] ends. *)
Inductive outcome : Type :=
| Nil
| Err (e : error)
| Panic (p : panic).

(** [IsEvalWithColumnErr]: [err == ErrCannotEvalWithColumnName]; the argument
    is [None] for a nil error. *)
Definition IsEvalWithColumnErr (err : option error) : bool :=
  match err with
  | Some ErrCannotEvalWithColumnName => true
  | _ => false
  end.

(** ** The string builder *)

Definition Builder : Type := string.

Definition WriteString (s : string) (sb : Builder) : Builder := sb ++ s.
Definition WriteByte (c : string) (sb : Builder) : Builder := sb ++ c.

(** [strconv.FormatInt(n, 10)] and [fmt.Fprintf(sb, "%d", n)] on an int64. *)
Definition FormatInt (n : Z) : string := NilZero.string_of_int (Z.to_int n).

Definition _prefixMySQLFunc : string := "$".

Definition TranslateFunction (name : string) : string := _prefixMySQLFunc ++ name.

Definition writeFuncName (name : string) (sb : Builder) : Builder :=
  WriteString name (WriteString _prefixMySQLFunc sb).

Definition writeVariable (n : Z) (sb : Builder) : Builder :=
  WriteByte "]" (WriteString (FormatInt n) (WriteString "arguments[" sb)).

(** Sequencing of two fallible steps on the builder: the second runs only
    when the first returned a nil error. *)
Definition andThen (r : Builder * outcome) (k : Builder -> Builder * outcome)
  : Builder * outcome :=
  match r with
  | (sb, Nil) => k sb
  | _ => r
  end.

(** ** The AST, as far as the translator inspects it *)

(** A Go value that is not an AST node (the payload of a constant). *)
Inductive GoValue : Type :=
| GoNil
| GoInt (n : Z)
| GoString (s : string)
| GoBool (b : bool)
| GoOpaque (tyname : string).

(** [cmp.Comparison]: the translator tests it against [cmp.Ceq] and [cmp.Cne]
    only. *)
Inductive Comparison : Type :=
| Ceq
| Cne
| ComparisonOther (code : Z).

(** [ast.CastType]: the values named in [castFunction2script], and any other
    value of the underlying integer type. *)
Inductive CastType : Type :=
| CastToUnsigned | CastToUnsignedInteger
| CastToSigned | CastToSignedInteger
| CastToBinary
| CastToNChar
| CastToChar
| CastToDate
| CastToDateTime
| CastToTime
| CastToJson
| CastToDecimal
| CastTypeOther (code : Z).

(** [*ast.ConvertDataType] through its accessors [Type()], [Dimensions()] and
    [Charset()]. *)
Record ConvertDataType : Type := mkConvertDataType {
  cdt_Type : CastType;
  cdt_Dimensions : Z * Z;
  cdt_Charset : option string
}.

(** [ast.FunctionArgType]: the values named in [handleArg], and any other. *)
Inductive FunctionArgType : Type :=
| FunctionArgColumn
| FunctionArgConstant
| FunctionArgExpression
| FunctionArgFunction
| FunctionArgCastFunction
| FunctionArgCaseWhenElseFunction
| FunctionArgTypeOther (code : Z).

(** The node types.  [Dyn] is a value of an interface type ([ast.Node] or
    [interface{}]) together with its dynamic type; the [Other] constructors
    stand for the dynamic types the translator does not name, with the text
    [%T] prints for them.  A node carries what the translator reads from it:
    an interval its wrapped [Value] and the int64 [Duration().Nanoseconds()],
    a variable its index [N()], a CAST the results of [GetCast()],
    [GetCharset()] and [Source()] (an absent result is [None]), a CASE the
    results of [Case()] (nil is [None]), [Branches()] and [Else()]. *)
Inductive ExpressionAtom : Type :=
| AtomInterval (Value : PredicateNode) (Nanoseconds : Z)
| AtomMath (m : MathExpressionAtom)
| AtomConstant (Inner : GoValue)
| AtomUnary (Operator : string) (Inner : Dyn)
| AtomColumnName (name : list string)
| AtomNested (First : ExpressionNode)
| AtomVariable (n : Z)
| AtomFunctionCall (F : Dyn)
| AtomOther (tyname : string)
with MathExpressionAtom : Type :=
| mkMath (Left : ExpressionAtom) (Operator : string) (Right : ExpressionAtom)
with PredicateNode : Type :=
| AtomPredicateNode (A : ExpressionAtom)
| BinaryComparisonPredicateNode (Left : PredicateNode) (Op : Comparison) (Right : PredicateNode)
| PredicateOther (tyname : string)
with ExpressionNode : Type :=
| PredicateExpressionNode (P : PredicateNode)
| ExpressionOther (tyname : string)
with Dyn : Type :=
| DynValue (v : GoValue)
| DynAtom (a : ExpressionAtom)
| DynPredicate (p : PredicateNode)
| DynExpression (e : ExpressionNode)
| DynFunction (f : Function)
| DynAggrFunction
| DynCastFunction (c : CastFunction)
| DynCaseWhenElseFunction (c : CaseWhenElseFunction)
with Function : Type :=
| mkFunction (Name : string) (Args : list FunctionArg)
with FunctionArg : Type :=
| mkFunctionArg (Type_ : FunctionArgType) (Value : Dyn)
with CastFunction : Type :=
| mkCastFunction (GetCast : option ConvertDataType) (GetCharset : option string)
                 (Source : ExpressionNode)
with CaseWhenElseFunction : Type :=
| mkCaseWhenElse (Case : option ExpressionNode)
                 (Branches : list (FunctionArg * FunctionArg))
                 (Else : option FunctionArg).

(** What [%T] prints. *)
Definition typeNameValue (v : GoValue) : string :=
  match v with
  | GoNil => "<nil>"
  | GoInt _ => "int64"
  | GoString _ => "string"
  | GoBool _ => "bool"
  | GoOpaque t => t
  end.

Definition typeNameAtom (a : ExpressionAtom) : string :=
  match a with
  | AtomInterval _ _ => "*ast.IntervalExpressionAtom"
  | AtomMath _ => "*ast.MathExpressionAtom"
  | AtomConstant _ => "*ast.ConstantExpressionAtom"
  | AtomUnary _ _ => "*ast.UnaryExpressionAtom"
  | AtomColumnName _ => "ast.ColumnNameExpressionAtom"
  | AtomNested _ => "*ast.NestedExpressionAtom"
  | AtomVariable _ => "ast.VariableExpressionAtom"
  | AtomFunctionCall _ => "*ast.FunctionCallExpressionAtom"
  | AtomOther t => t
  end.

Definition typeNamePredicate (p : PredicateNode) : string :=
  match p with
  | AtomPredicateNode _ => "*ast.AtomPredicateNode"
  | BinaryComparisonPredicateNode _ _ _ => "*ast.BinaryComparisonPredicateNode"
  | PredicateOther t => t
  end.

Definition typeNameExpression (e : ExpressionNode) : string :=
  match e with
  | PredicateExpressionNode _ => "*ast.PredicateExpressionNode"
  | ExpressionOther t => t
  end.

Definition typeNameDyn (d : Dyn) : string :=
  match d with
  | DynValue v => typeNameValue v
  | DynAtom a => typeNameAtom a
  | DynPredicate p => typeNamePredicate p
  | DynExpression e => typeNameExpression e
  | DynFunction _ => "*ast.Function"
  | DynAggrFunction => "*ast.AggrFunction"
  | DynCastFunction _ => "*ast.CastFunction"
  | DynCaseWhenElseFunction _ => "*ast.CaseWhenElseFunction"
  end.

(** ** What the translator calls outside this package *)

Class AstApi : Type := {
  (** the [String()] method of a constant atom *)
  constant_String : GoValue -> string;
  (** the text [arg.Restore(ast.RestoreDefault, sb, nil)] writes; its error
      is dropped by the caller *)
  arg_Restore : FunctionArg -> string;
  (** the text [op.WriteTo(sb)] writes; its results are dropped *)
  cmp_WriteTo : Comparison -> string;
  (** [misc.Escape(s, misc.EscapeSingleQuote)] *)
  misc_Escape : string -> string;
  (** the constant [FuncUnary], declared in another file of the package *)
  FuncUnary : string
}.

(** The comparison symbol written between the two operands. *)
Definition writeComparison `{api : AstApi} (op : Comparison) (sb : Builder) : Builder :=
  match op with
  | Ceq => WriteString "==" sb
  | Cne => WriteString "!=" sb
  | _ => WriteString (cmp_WriteTo op) sb
  end.

(** A size argument of a cast: [strconv.FormatInt(d, 10)] when [d > 0], else
    the byte ['0']. *)
Definition writeDimension (d : Z) (sb : Builder) : Builder :=
  if (0 <? d)%Z then WriteString (FormatInt d) sb else WriteByte "0" sb.

(** The first part of [castFunction2script]: the [if]/[else if]/[else] that
    writes the function name and its leading arguments. *)
Definition castHeader `{api : AstApi} (GetCast : option ConvertDataType)
    (GetCharset : option string) (sb : Builder) : Builder * outcome :=
  match GetCast with
  | Some cast =>
      match cdt_Type cast with
      | CastToUnsigned | CastToUnsignedInteger =>
          (WriteByte "(" (writeFuncName "CAST_UNSIGNED" sb), Nil)
      | CastToSigned | CastToSignedInteger =>
          (WriteByte "(" (writeFuncName "CAST_SIGNED" sb), Nil)
      | CastToBinary =>
          (sb, Err (ErrNew "cast to binary is not supported yet"))
      | CastToNChar =>
          let sb := WriteByte "(" (writeFuncName "CAST_NCHAR" sb) in
          let sb := writeDimension (fst (cdt_Dimensions cast)) sb in
          (WriteString ", " sb, Nil)
      | CastToChar =>
          let sb := WriteByte "(" (writeFuncName "CAST_CHAR" sb) in
          let sb := writeDimension (fst (cdt_Dimensions cast)) sb in
          let sb := WriteString ", " sb in
          let sb :=
            match cdt_Charset cast with
            | Some cs => WriteByte "'" (WriteString (misc_Escape cs) (WriteByte "'" sb))
            | None => WriteString "''" sb
            end in
          (WriteString ", " sb, Nil)
      | CastToDate =>
          (WriteByte "(" (writeFuncName "CAST_DATE" sb), Nil)
      | CastToDateTime =>
          (WriteByte "(" (writeFuncName "CAST_DATETIME" sb), Nil)
      | CastToTime =>
          (WriteByte "(" (writeFuncName "CAST_TIME" sb), Nil)
      | CastToJson =>
          (sb, Err (ErrNew "cast to json is not supported yet"))
      | CastToDecimal =>
          let sb := WriteByte "(" (writeFuncName "CAST_DECIMAL" sb) in
          let sb := writeDimension (fst (cdt_Dimensions cast)) sb in
          let sb := WriteString ", " sb in
          let sb := writeDimension (snd (cdt_Dimensions cast)) sb in
          (WriteString ", " sb, Nil)
      | CastTypeOther _ => (sb, Nil)
      end
  | None =>
      match GetCharset with
      | Some charset =>
          let sb := writeFuncName "CAST_CHARSET(" sb in
          let sb := WriteByte "'" (WriteString (misc_Escape charset) (WriteByte "'" sb)) in
          (WriteString ", " sb, Nil)
      | None => (sb, Panic PanicUnreachable)
      end
  end.

(** The closing loop of [caseWhenFunction2script]: one [')'] per branch. *)
Fixpoint closeParens (n : nat) (sb : Builder) : Builder :=
  match n with
  | O => sb
  | S n' => closeParens n' (WriteByte ")" sb)
  end.

(** ** The translator *)

Section Translator.
Context `{api : AstApi}.

Fixpoint exprAtom2script (node : ExpressionAtom) (sb : Builder) {struct node}
  : Builder * outcome :=
  match node with
  | AtomInterval Value ns =>
      match Value with
      | AtomPredicateNode A =>
          match exprAtom2script A sb with
          | (sb, Nil) =>
              let sb := WriteString " * " sb in
              (WriteString (FormatInt ns) sb, Nil)
          | (sb, Err e) => (sb, Err (ErrWithStack e))
          | (sb, Panic p) => (sb, Panic p)
          end
      | _ =>
          (sb, Err (ErrNew ("invalid expr " ++ typeNamePredicate Value
                            ++ " for interval expression")))
      end
  | AtomMath m => math2script m sb
  | AtomConstant v => (WriteString (constant_String v) sb, Nil)
  | AtomUnary Operator Inner =>
      let sb := WriteString FuncUnary sb in
      let sb := WriteString "('" sb in
      let sb := WriteString Operator sb in
      let sb := WriteString "', " sb in
      andThen
        match Inner with
        | DynAtom it => exprAtom2script it sb
        | DynPredicate (BinaryComparisonPredicateNode Left Op Right) =>
            andThen (handleCompareAtom Left sb) (fun sb =>
              let sb := WriteByte " " sb in
              let sb := writeComparison Op sb in
              let sb := WriteByte " " sb in
              handleCompareAtom Right sb)
        | _ => (sb, Panic PanicUnreachable)
        end
        (fun sb => (WriteByte ")" sb, Nil))
  | AtomColumnName _ => (sb, Err ErrCannotEvalWithColumnName)
  | AtomNested First =>
      match First with
      | PredicateExpressionNode (AtomPredicateNode next) =>
          let sb := WriteByte "(" sb in
          andThen (exprAtom2script next sb) (fun sb => (WriteByte ")" sb, Nil))
      | _ => (sb, Panic PanicTypeAssertion)
      end
  | AtomVariable n => (writeVariable n sb, Nil)
  | AtomFunctionCall F =>
      match F with
      | DynFunction fn => function2script fn sb
      | DynAggrFunction =>
          (sb, Err (ErrNew "aggr function should not appear here"))
      | DynCastFunction fn => castFunction2script fn sb
      | DynCaseWhenElseFunction fn => caseWhenFunction2script fn sb
      | _ =>
          (sb, Err (ErrNew ("expression atom within function call "
                            ++ typeNameDyn F ++ " is not supported yet")))
      end
  | AtomOther t =>
      (sb, Err (ErrNew ("expression atom within " ++ t ++ " is not supported yet")))
  end

with math2script (node : MathExpressionAtom) (sb : Builder) {struct node}
  : Builder * outcome :=
  match node with
  | mkMath Left Operator Right =>
      andThen (exprAtom2script Left sb) (fun sb =>
        let sb := WriteByte " " sb in
        let sb := WriteString Operator sb in
        let sb := WriteByte " " sb in
        exprAtom2script Right sb)
  end

with castFunction2script (node : CastFunction) (sb : Builder) {struct node}
  : Builder * outcome :=
  match node with
  | mkCastFunction GetCast GetCharset Source =>
      andThen (castHeader GetCast GetCharset sb) (fun sb =>
        match Source with
        | PredicateExpressionNode (AtomPredicateNode next) =>
            andThen (exprAtom2script next sb) (fun sb => (WriteByte ")" sb, Nil))
        | _ => (sb, Panic PanicTypeAssertion)
        end)
  end

with function2script (node : Function) (sb : Builder) {struct node}
  : Builder * outcome :=
  match node with
  | mkFunction Name Args =>
      let sb := writeFuncName Name sb in
      let sb := WriteByte "(" sb in
      andThen
        ((fix range (i : nat) (args : list FunctionArg) (sb : Builder) {struct args}
            : Builder * outcome :=
            match args with
            | [] => (sb, Nil)
            | arg :: rest =>
                let sb := if (0 <? i)%nat then WriteByte " " (WriteByte "," sb) else sb in
                andThen (handleArg arg sb) (range (S i) rest)
            end) O Args sb)
        (fun sb => (WriteByte ")" sb, Nil))
  end

with handleCompareAtom (node : PredicateNode) (sb : Builder) {struct node}
  : Builder * outcome :=
  match node with
  | AtomPredicateNode A => exprAtom2script A sb
  | _ =>
      (sb, Err (ErrNew ("unsupported compare atom node " ++ typeNamePredicate node
                        ++ " in case-when function")))
  end

with handleArg (arg : FunctionArg) (sb : Builder) {struct arg}
  : Builder * outcome :=
  match arg with
  | mkFunctionArg ty Value =>
      match ty with
      | FunctionArgColumn => (sb, Err ErrCannotEvalWithColumnName)
      | FunctionArgConstant => (WriteString (arg_Restore arg) sb, Nil)
      | FunctionArgExpression =>
          match Value with
          | DynExpression (PredicateExpressionNode pn) =>
              match pn with
              | AtomPredicateNode next => exprAtom2script next sb
              | BinaryComparisonPredicateNode Left Op Right =>
                  andThen (handleCompareAtom Left sb) (fun sb =>
                    let sb := WriteByte " " sb in
                    let sb := writeComparison Op sb in
                    let sb := WriteByte " " sb in
                    handleCompareAtom Right sb)
              | _ => (sb, Err (ErrNew ("unsupported " ++ typeNamePredicate pn)))
              end
          | _ => (sb, Panic PanicTypeAssertion)
          end
      | FunctionArgFunction =>
          match Value with
          | DynFunction f => function2script f sb
          | _ => (sb, Panic PanicTypeAssertion)
          end
      | FunctionArgCastFunction =>
          match Value with
          | DynCastFunction f => castFunction2script f sb
          | _ => (sb, Panic PanicTypeAssertion)
          end
      | FunctionArgCaseWhenElseFunction =>
          match Value with
          | DynCaseWhenElseFunction f => caseWhenFunction2script f sb
          | _ => (sb, Panic PanicTypeAssertion)
          end
      | FunctionArgTypeOther _ => (sb, Nil)
      end
  end

with caseWhenFunction2script (node : CaseWhenElseFunction) (sb : Builder) {struct node}
  : Builder * outcome :=
  match node with
  | mkCaseWhenElse Case Branches Else =>
      (* the CASE header goes to a builder of its own *)
      match
        match Case with
        | None => (""%string, Nil)
        | Some (PredicateExpressionNode (AtomPredicateNode A)) => exprAtom2script A ""
        | Some v =>
            (""%string, Err (ErrNew ("invalid expression type " ++ typeNameExpression v
                             ++ " as the CASE body")))
        end
      with
      | (caseScript, Nil) =>
          andThen
            ((fix range (i : nat) (branches : list (FunctionArg * FunctionArg))
                  (sb : Builder) {struct branches} : Builder * outcome :=
                match branches with
                | [] => (sb, Nil)
                | (when, then_) :: rest =>
                    let sb := if (0 <? i)%nat then WriteString ", " sb else sb in
                    let sb := writeFuncName "IF" sb in
                    let sb := WriteByte "(" sb in
                    andThen (handleArg when sb) (fun sb =>
                      let sb :=
                        if (0 <? String.length caseScript)%nat
                        then WriteByte ")" (WriteString caseScript (WriteString " == (" sb))
                        else sb in
                      let sb := WriteString ", " sb in
                      andThen (handleArg then_ sb) (range (S i) rest))
                end) O Branches sb)
            (fun sb =>
               let sb := WriteString ", " sb in
               andThen
                 match Else with
                 | Some els => handleArg els sb
                 | None => (WriteString "null" sb, Nil)
                 end
                 (fun sb => (closeParens (List.length Branches) sb, Nil)))
      | (_, o) => (sb, o)
      end
  end.

End Translator.

(** ** The two range loops on their own

    [rangeArgs] is the loop of [function2script] and [rangeBranches] the loop
    of [caseWhenFunction2script], with the call to [handleArg] abstracted; the
    lemmas [function2script_eq] and [caseWhenFunction2script_eq] below show
    that the translator runs exactly these loops. *)

Section Loops.
Variable h : FunctionArg -> Builder -> Builder * outcome.
Variable caseScript : string.

Fixpoint rangeArgs (i : nat) (args : list FunctionArg) (sb : Builder) {struct args}
  : Builder * outcome :=
  match args with
  | [] => (sb, Nil)
  | arg :: rest =>
      let sb := if (0 <? i)%nat then WriteByte " " (WriteByte "," sb) else sb in
      andThen (h arg sb) (rangeArgs (S i) rest)
  end.

Fixpoint rangeBranches (i : nat) (branches : list (FunctionArg * FunctionArg))
    (sb : Builder) {struct branches} : Builder * outcome :=
  match branches with
  | [] => (sb, Nil)
  | (when, then_) :: rest =>
      let sb := if (0 <? i)%nat then WriteString ", " sb else sb in
      let sb := writeFuncName "IF" sb in
      let sb := WriteByte "(" sb in
      andThen (h when sb) (fun sb =>
        let sb :=
          if (0 <? String.length caseScript)%nat
          then WriteByte ")" (WriteString caseScript (WriteString " == (" sb))
          else sb in
        let sb := WriteString ", " sb in
        andThen (h then_ sb) (rangeBranches (S i) rest))
  end.

End Loops.
Arguments rangeArgs h i args sb : clear implicits.
Arguments rangeBranches h caseScript i branches sb : clear implicits.

(** The CASE header of [caseWhenFunction2script]: the script of the subject,
    built in a fresh builder; the empty script when there is no subject. *)
Definition caseHeader `{api : AstApi} (Case : option ExpressionNode) : Builder * outcome :=
  match Case with
  | None => (""%string, Nil)
  | Some (PredicateExpressionNode (AtomPredicateNode A)) => exprAtom2script A ""
  | Some v =>
      (""%string, Err (ErrNew ("invalid expression type " ++ typeNameExpression v
                       ++ " as the CASE body")))
  end.

(** ** Scripts: what a translator function writes into a fresh builder *)

Definition atomScript `{api : AstApi} (a : ExpressionAtom) : string := fst (exprAtom2script a "").
Definition argScript `{api : AstApi} (a : FunctionArg) : string := fst (handleArg a "").

(** ** The shape of a CASE script, after the words of the specification

    A right-nested chain [$IF(cond, then, $IF(cond, then, ..., else))], one
    level per branch, in branch order; a condition is the when-value followed
    by [ == (<subject-script>)] when there is a subject; the innermost last
    element is the else-value. *)

Definition ifCondition (subject : option string) (when : string) : string :=
  match subject with
  | Some s => when ++ " == (" ++ s ++ ")"
  | None => when
  end.

Fixpoint ifChain (subject : option string) (branches : list (string * string))
    (els : string) : string :=
  match branches with
  | [] => els
  | (when, then_) :: rest =>
      "$IF(" ++ ifCondition subject when ++ ", " ++ then_ ++ ", "
        ++ ifChain subject rest els ++ ")"
  end.

(** With no branch at all the translator still writes the separator in front
    of the else-value. *)
Definition chainLead {A : Type} (branches : list A) : string :=
  match branches with
  | [] => ", "
  | _ => ""
  end.

(** ** Shapes of trees *)

(** [everywhere] checks a local condition at every atom, argument, CAST and
    CASE node of a tree. *)
Section Everywhere.
Variable okAtom : ExpressionAtom -> bool.
Variable okArg : FunctionArg -> bool.
Variable okCast : CastFunction -> bool.
Variable okCase : CaseWhenElseFunction -> bool.

Fixpoint everywhereAtom (a : ExpressionAtom) {struct a} : bool :=
  okAtom a &&
  match a with
  | AtomInterval Value _ => everywherePredicate Value
  | AtomMath m => everywhereMath m
  | AtomUnary _ Inner => everywhereDyn Inner
  | AtomNested First => everywhereExpression First
  | AtomFunctionCall F => everywhereDyn F
  | AtomConstant _ | AtomColumnName _ | AtomVariable _ | AtomOther _ => true
  end
with everywhereMath (m : MathExpressionAtom) {struct m} : bool :=
  match m with
  | mkMath Left _ Right => everywhereAtom Left && everywhereAtom Right
  end
with everywherePredicate (p : PredicateNode) {struct p} : bool :=
  match p with
  | AtomPredicateNode A => everywhereAtom A
  | BinaryComparisonPredicateNode Left _ Right =>
      everywherePredicate Left && everywherePredicate Right
  | PredicateOther _ => true
  end
with everywhereExpression (e : ExpressionNode) {struct e} : bool :=
  match e with
  | PredicateExpressionNode P => everywherePredicate P
  | ExpressionOther _ => true
  end
with everywhereDyn (d : Dyn) {struct d} : bool :=
  match d with
  | DynValue _ | DynAggrFunction => true
  | DynAtom a => everywhereAtom a
  | DynPredicate p => everywherePredicate p
  | DynExpression e => everywhereExpression e
  | DynFunction f => everywhereFunction f
  | DynCastFunction c => everywhereCast c
  | DynCaseWhenElseFunction c => everywhereCase c
  end
with everywhereFunction (f : Function) {struct f} : bool :=
  match f with
  | mkFunction _ Args =>
      (fix all (args : list FunctionArg) : bool :=
         match args with
         | [] => true
         | arg :: rest => everywhereArg arg && all rest
         end) Args
  end
with everywhereArg (arg : FunctionArg) {struct arg} : bool :=
  okArg arg &&
  match arg with
  | mkFunctionArg _ Value => everywhereDyn Value
  end
with everywhereCast (c : CastFunction) {struct c} : bool :=
  okCast c &&
  match c with
  | mkCastFunction _ _ Source => everywhereExpression Source
  end
with everywhereCase (c : CaseWhenElseFunction) {struct c} : bool :=
  okCase c &&
  match c with
  | mkCaseWhenElse Case Branches Else =>
      match Case with
      | Some e => everywhereExpression e
      | None => true
      end
      && (fix all (branches : list (FunctionArg * FunctionArg)) : bool :=
            match branches with
            | [] => true
            | (when, then_) :: rest =>
                everywhereArg when && everywhereArg then_ && all rest
            end) Branches
      && match Else with
         | Some els => everywhereArg els
         | None => true
         end
  end.

End Everywhere.

Definition isAtomPredicate (p : PredicateNode) : bool :=
  match p with
  | AtomPredicateNode _ => true
  | _ => false
  end.

Definition wrapsAtomPredicate (e : ExpressionNode) : bool :=
  match e with
  | PredicateExpressionNode P => isAtomPredicate P
  | _ => false
  end.

(** The two shapes behind [panic("unreachable")]: a unary operand that is
    neither an expression atom nor a binary comparison, and a CAST with
    neither a target type nor a charset. *)
Definition unaryOperandOk (a : ExpressionAtom) : bool :=
  match a with
  | AtomUnary _ (DynAtom _) => true
  | AtomUnary _ (DynPredicate (BinaryComparisonPredicateNode _ _ _)) => true
  | AtomUnary _ _ => false
  | _ => true
  end.

Definition castTargetOk (c : CastFunction) : bool :=
  match c with
  | mkCastFunction None None _ => false
  | _ => true
  end.

Definition noUnreachableShape : Dyn -> bool :=
  everywhereDyn unaryOperandOk (fun _ => true) castTargetOk (fun _ => true).

(** The shapes behind the unchecked type assertions: a nested atom or a CAST
    source that does not wrap a single-atom predicate, and an argument whose
    value is not of the dynamic type its [Type] field announces. *)
Definition nestedOk (a : ExpressionAtom) : bool :=
  match a with
  | AtomNested First => wrapsAtomPredicate First
  | _ => true
  end.

Definition castSourceOk (c : CastFunction) : bool :=
  match c with
  | mkCastFunction _ _ Source => wrapsAtomPredicate Source
  end.

Definition argValueOk (arg : FunctionArg) : bool :=
  match arg with
  | mkFunctionArg FunctionArgExpression (DynExpression (PredicateExpressionNode _)) => true
  | mkFunctionArg FunctionArgExpression _ => false
  | mkFunctionArg FunctionArgFunction (DynFunction _) => true
  | mkFunctionArg FunctionArgFunction _ => false
  | mkFunctionArg FunctionArgCastFunction (DynCastFunction _) => true
  | mkFunctionArg FunctionArgCastFunction _ => false
  | mkFunctionArg FunctionArgCaseWhenElseFunction (DynCaseWhenElseFunction _) => true
  | mkFunctionArg FunctionArgCaseWhenElseFunction _ => false
  | _ => true
  end.

Definition atomNotFatal (a : ExpressionAtom) : bool := unaryOperandOk a && nestedOk a.
Definition castNotFatal (c : CastFunction) : bool := castTargetOk c && castSourceOk c.

Definition noFatalShape : Dyn -> bool :=
  everywhereDyn atomNotFatal argValueOk castNotFatal (fun _ => true).

(** The shapes the translator renders: on top of the above, no atom, callee,
    predicate, argument type or cast type outside the ones it names. *)
Definition atomSupported (a : ExpressionAtom) : bool :=
  match a with
  | AtomInterval Value _ => isAtomPredicate Value
  | AtomUnary _ (DynAtom _) => true
  | AtomUnary _ (DynPredicate (BinaryComparisonPredicateNode Left _ Right)) =>
      isAtomPredicate Left && isAtomPredicate Right
  | AtomUnary _ _ => false
  | AtomNested First => wrapsAtomPredicate First
  | AtomFunctionCall (DynFunction _) => true
  | AtomFunctionCall (DynCastFunction _) => true
  | AtomFunctionCall (DynCaseWhenElseFunction _) => true
  | AtomFunctionCall _ => false
  | AtomOther _ => false
  | _ => true
  end.

Definition argSupported (arg : FunctionArg) : bool :=
  match arg with
  | mkFunctionArg FunctionArgColumn _ => true
  | mkFunctionArg FunctionArgConstant (DynValue _) => true
  | mkFunctionArg FunctionArgExpression
      (DynExpression (PredicateExpressionNode (AtomPredicateNode _))) => true
  | mkFunctionArg FunctionArgExpression
      (DynExpression (PredicateExpressionNode
         (BinaryComparisonPredicateNode Left _ Right))) =>
      isAtomPredicate Left && isAtomPredicate Right
  | mkFunctionArg FunctionArgFunction (DynFunction _) => true
  | mkFunctionArg FunctionArgCastFunction (DynCastFunction _) => true
  | mkFunctionArg FunctionArgCaseWhenElseFunction (DynCaseWhenElseFunction _) => true
  | _ => false
  end.

Definition castTypeSupported (t : CastType) : bool :=
  match t with
  | CastToBinary | CastToJson | CastTypeOther _ => false
  | _ => true
  end.

Definition castSupported (c : CastFunction) : bool :=
  match c with
  | mkCastFunction (Some cast) _ Source =>
      castTypeSupported (cdt_Type cast) && wrapsAtomPredicate Source
  | mkCastFunction None (Some _) Source => wrapsAtomPredicate Source
  | mkCastFunction None None _ => false
  end.

Definition caseSupported (c : CaseWhenElseFunction) : bool :=
  match c with
  | mkCaseWhenElse (Some e) _ _ => wrapsAtomPredicate e
  | mkCaseWhenElse None _ _ => true
  end.

Definition supported : Dyn -> bool :=
  everywhereDyn atomSupported argSupported castSupported caseSupported.

(** ** The first column reference of a tree

    The walk of the translator, without the text: the first column reference
    (column atom or column-typed argument) met in emission order, with the
    number of interval literals around it; [None] when the walk meets no
    column reference. *)

Definition orElse (x y : option nat) : option nat :=
  match x with
  | Some n => Some n
  | None => y
  end.

Fixpoint columnAtom (a : ExpressionAtom) {struct a} : option nat :=
  match a with
  | AtomInterval (AtomPredicateNode A) _ => option_map S (columnAtom A)
  | AtomMath m => columnMath m
  | AtomUnary _ (DynAtom it) => columnAtom it
  | AtomUnary _ (DynPredicate (BinaryComparisonPredicateNode Left _ Right)) =>
      orElse (columnPredicate Left) (columnPredicate Right)
  | AtomColumnName _ => Some O
  | AtomNested (PredicateExpressionNode (AtomPredicateNode next)) => columnAtom next
  | AtomFunctionCall (DynFunction fn) => columnFunction fn
  | AtomFunctionCall (DynCastFunction fn) => columnCast fn
  | AtomFunctionCall (DynCaseWhenElseFunction fn) => columnCase fn
  | _ => None
  end
with columnMath (m : MathExpressionAtom) {struct m} : option nat :=
  match m with
  | mkMath Left _ Right => orElse (columnAtom Left) (columnAtom Right)
  end
with columnPredicate (p : PredicateNode) {struct p} : option nat :=
  match p with
  | AtomPredicateNode A => columnAtom A
  | _ => None
  end
with columnFunction (f : Function) {struct f} : option nat :=
  match f with
  | mkFunction _ Args =>
      (fix first (args : list FunctionArg) : option nat :=
         match args with
         | [] => None
         | arg :: rest => orElse (columnArg arg) (first rest)
         end) Args
  end
with columnArg (arg : FunctionArg) {struct arg} : option nat :=
  match arg with
  | mkFunctionArg FunctionArgColumn _ => Some O
  | mkFunctionArg FunctionArgExpression
      (DynExpression (PredicateExpressionNode (AtomPredicateNode next))) =>
      columnAtom next
  | mkFunctionArg FunctionArgExpression
      (DynExpression (PredicateExpressionNode
         (BinaryComparisonPredicateNode Left _ Right))) =>
      orElse (columnPredicate Left) (columnPredicate Right)
  | mkFunctionArg FunctionArgFunction (DynFunction f) => columnFunction f
  | mkFunctionArg FunctionArgCastFunction (DynCastFunction f) => columnCast f
  | mkFunctionArg FunctionArgCaseWhenElseFunction (DynCaseWhenElseFunction f) =>
      columnCase f
  | _ => None
  end
with columnCast (c : CastFunction) {struct c} : option nat :=
  match c with
  | mkCastFunction _ _ (PredicateExpressionNode (AtomPredicateNode next)) =>
      columnAtom next
  | _ => None
  end
with columnCase (c : CaseWhenElseFunction) {struct c} : option nat :=
  match c with
  | mkCaseWhenElse Case Branches Else =>
      orElse
        match Case with
        | Some (PredicateExpressionNode (AtomPredicateNode A)) => columnAtom A
        | _ => None
        end
        (orElse
           ((fix first (branches : list (FunctionArg * FunctionArg)) : option nat :=
               match branches with
               | [] => None
               | (when, then_) :: rest =>
                   orElse (columnArg when) (orElse (columnArg then_) (first rest))
               end) Branches)
           match Else with
           | Some els => columnArg els
           | None => None
           end)
  end.

(** The first column reference of a node handed to [build]. *)
Definition columnOf (source : Dyn) : option nat :=
  match source with
  | DynCaseWhenElseFunction c => columnCase c
  | DynCastFunction c => columnCast c
  | DynFunction f => columnFunction f
  | DynAtom (AtomMath m) => columnMath m
  | _ => None
  end.

(** [n] applications of [errors.WithStack]. *)
Fixpoint withStacks (n : nat) (e : error) : error :=
  match n with
  | O => e
  | S n' => ErrWithStack (withStacks n' e)
  end.

(** ** The memoized computation *)

(** A call that returns a value of type [A], or panics. *)
Inductive result (A : Type) : Type :=
| Returned (a : A)
| Panicked (p : panic).
Arguments Returned {A} a.
Arguments Panicked {A} p.

(** What a run of the system does that a caller cannot see in the results:
    runs of the translator and calls of the script engine. *)
Inductive event : Type :=
| EvTranslate (source : Dyn)
| EvEngine (script : string) (args : list GoValue).

Definition isEngineEvent (e : event) : bool :=
  match e with
  | EvEngine _ _ => true
  | EvTranslate _ => false
  end.

(** [scriptComputer]: the embedded [sync.Once] is its [done] flag; a nil
    [source] is [DynValue GoNil], a nil [err] is [None]. *)
Record scriptComputer : Type := mkScriptComputer {
  once_done : bool;
  sc_source : Dyn;
  sc_script : string;
  sc_err : option error
}.

Definition newScriptComputer (source : Dyn) : scriptComputer :=
  mkScriptComputer false source "" None.

(** The type switch inside [compute], run on a fresh builder. *)
Definition translateSource `{api : AstApi} (source : Dyn) : Builder * outcome :=
  match source with
  | DynCaseWhenElseFunction source => caseWhenFunction2script source ""
  | DynCastFunction source => castFunction2script source ""
  | DynFunction source => function2script source ""
  | DynAtom (AtomMath source) => math2script source ""
  | _ =>
      (""%string, Err (ErrNew ("invalid script source node type " ++ typeNameDyn source)))
  end.

(** The function [compute] passes to [Do], with its deferred
    [sc.source = nil]; the second component tells whether it panicked. *)
Definition computeOnce `{api : AstApi} (sc : scriptComputer) : scriptComputer * option panic :=
  match translateSource (sc_source sc) with
  | (sb, Nil) =>
      (mkScriptComputer (once_done sc) (DynValue GoNil) sb (sc_err sc), None)
  | (_, Err e) =>
      (mkScriptComputer (once_done sc) (DynValue GoNil) (sc_script sc) (Some e), None)
  | (_, Panic p) =>
      (mkScriptComputer (once_done sc) (DynValue GoNil) (sc_script sc) (sc_err sc), Some p)
  end.

(** [compute], for one caller at a time.  [sync.Once.Do] runs the function
    when the flag is not set, and sets the flag when the function returns or
    panics. *)
Definition compute `{api : AstApi} (sc : scriptComputer)
  : scriptComputer * result (string * option error) * list event :=
  if once_done sc then (sc, Returned (sc_script sc, sc_err sc), [])
  else
    let (sc', p) := computeOnce sc in
    let sc' := mkScriptComputer true (sc_source sc') (sc_script sc') (sc_err sc') in
    (sc',
     match p with
     | None => Returned (sc_script sc', sc_err sc')
     | Some p => Panicked p
     end,
     [EvTranslate (sc_source sc)]).

(** ** The compilation cache *)

(** The cache key [fmt.Sprintf("%T_%p", node, node)]: the dynamic type of the
    node and its address. *)
Definition key : Type := string * nat.

(** The LRU cache of the library [golang-lru], as far as [build] uses it: an
    association list from keys to the addresses of script computers, most
    recently used first, of at most [cacheSize] entries. *)
Definition cacheSize : nat := 1024.

Fixpoint lruFind (k : key) (c : list (key * nat)) : option nat :=
  match c with
  | [] => None
  | (k', a) :: rest => if decide (k = k') then Some a else lruFind k rest
  end.

Fixpoint lruRemove (k : key) (c : list (key * nat)) : list (key * nat) :=
  match c with
  | [] => []
  | (k', a) :: rest =>
      if decide (k = k') then lruRemove k rest else (k', a) :: lruRemove k rest
  end.

(** [Get]: a hit moves the entry to the front. *)
Definition lruGet (k : key) (c : list (key * nat)) : option (nat * list (key * nat)) :=
  match lruFind k c with
  | Some a => Some (a, (k, a) :: lruRemove k c)
  | None => None
  end.

(** [PeekOrAdd]: a present entry is returned and the order left alone; else
    the new entry goes to the front and the oldest one is evicted when the
    cache is over its size. *)
Definition lruPeekOrAdd (k : key) (a : nat) (c : list (key * nat))
  : option nat * list (key * nat) :=
  match lruFind k c with
  | Some prev => (Some prev, c)
  | None => (None, firstn cacheSize ((k, a) :: c))
  end.

(** The state shared by all callers: the script computers by address, the
    next free address, the cache of [globalCalculator()], and the events so
    far. *)
Record world : Type := mkWorld {
  heap : gmap nat scriptComputer;
  next : nat;
  cache : list (key * nat);
  trace : list event
}.

(** The state before the first use: [globalCalculator()] creates the empty
    cache on the first call. *)
Definition initialWorld : world := mkWorld ∅ O [] [].

(** [compute] on the script computer at address [a].  A missing computer
    stands for a failed type assertion on the cached value. *)
Definition computeAt `{api : AstApi} (a : nat) (w : world)
  : world * result (string * option error) :=
  match heap w !! a with
  | Some sc =>
      match compute sc with
      | (sc', r, evs) =>
          (mkWorld (<[a := sc']> (heap w)) (next w) (cache w) (trace w ++ evs)%list, r)
      end
  | None => (w, Panicked PanicTypeAssertion)
  end.

(** [calculator.build]; the node is given by its dynamic value and its
    address. *)
Definition build `{api : AstApi} (node : Dyn) (addr : nat) (w : world)
  : world * result (string * option error) :=
  let key := (typeNameDyn node, addr) in
  match lruGet key (cache w) with
  | Some (existing, c) => computeAt existing (mkWorld (heap w) (next w) c (trace w))
  | None =>
      let newborn := next w in
      let h := <[newborn := newScriptComputer node]> (heap w) in
      match lruPeekOrAdd key newborn (cache w) with
      | (Some prev, c) => computeAt prev (mkWorld h (S newborn) c (trace w))
      | (None, c) => computeAt newborn (mkWorld h (S newborn) c (trace w))
      end
  end.

(** ** The evaluation front-end *)

(** The script engine: what [vm.Eval(script, args)] returns. *)
Class ScriptEngine : Type := {
  vm_Eval : string -> list GoValue -> GoValue * option error
}.

(** A pointer to an immutable node: its address and the node it points to. *)
Record ptr (A : Type) : Type := mkPtr {
  addr : nat;
  target : A
}.
Arguments mkPtr {A} addr target.
Arguments addr {A} p.
Arguments target {A} p.

Definition EvalString `{engine : ScriptEngine} (script : string) (args : list GoValue) (w : world)
  : world * result (GoValue * option error) :=
  (mkWorld (heap w) (next w) (cache w) (trace w ++ [EvEngine script args])%list,
   Returned (vm_Eval script args)).

(** The body shared by the four front-ends: [build], then the script engine
    unless [build] returned an error. *)
Definition evalNode `{api : AstApi} `{engine : ScriptEngine} (node : Dyn) (addr : nat)
    (args : list GoValue) (w : world) : world * result (GoValue * option error) :=
  match build node addr w with
  | (w, Returned (s, None)) => EvalString s args w
  | (w, Returned (_, Some err)) => (w, Returned (GoNil, Some err))
  | (w, Panicked p) => (w, Panicked p)
  end.

Definition EvalCastFunction `{api : AstApi} `{engine : ScriptEngine} (node : ptr CastFunction) :=
  evalNode (DynCastFunction (target node)) (addr node).

Definition EvalCaseWhenFunction `{api : AstApi} `{engine : ScriptEngine} (node : ptr CaseWhenElseFunction) :=
  evalNode (DynCaseWhenElseFunction (target node)) (addr node).

Definition EvalFunction `{api : AstApi} `{engine : ScriptEngine} (node : ptr Function) :=
  evalNode (DynFunction (target node)) (addr node).

Definition Eval `{api : AstApi} `{engine : ScriptEngine} (node : ptr MathExpressionAtom) :=
  evalNode (DynAtom (AtomMath (target node))) (addr node).

(** A sequence of front-end calls, each with its node, the address of the
    node and the arguments; [runCalls] makes them one after the other and
    keeps the state. *)
Record call : Type := mkCall {
  call_node : Dyn;
  call_addr : nat;
  call_args : list GoValue
}.

Definition callKey (c : call) : key := (typeNameDyn (call_node c), call_addr c).

Fixpoint runCalls `{api : AstApi} `{engine : ScriptEngine} (cs : list call) (w : world) : world :=
  match cs with
  | [] => w
  | c :: rest => runCalls rest (fst (evalNode (call_node c) (call_addr c) (call_args c) w))
  end.


(** ** Invariants of the shared state *)

(** Distinct cache entries hold distinct script computers, every cached
    address is allocated, and every cached computer has run. *)
Definition wellFormed (w : world) : Prop :=
  NoDup (List.map snd (cache w)) /\
  forall k a, In (k, a) (cache w) ->
    (a < next w)%nat /\
    exists sc, heap w !! a = Some sc /\ once_done sc = true.

(** Every script computer cached under key [k] holds the error [e]. *)
Definition replays (k : key) (e : error) (w : world) : Prop :=
  forall a, In (k, a) (cache w) ->
    exists sc, heap w !! a = Some sc /\ once_done sc = true /\ sc_err sc = Some e.

(** The calls [cs] use the address [addr] with the type of [node] for no
    other node than [node]. *)
Definition sameIdentity (node : Dyn) (addr : nat) (cs : list call) : Prop :=
  Forall (fun c => callKey c = (typeNameDyn node, addr) -> call_node c = node) cs.

(** ** Statements about CASE and CAST scripts *)

(** The subject of a CASE as the chain sees it: absent, or a single-atom
    predicate whose script is not empty. *)
Definition subjectScript `{api : AstApi} (Case : option ExpressionNode)
    (subject : option string) : Prop :=
  match Case with
  | None => subject = None
  | Some e =>
      exists A cs,
        e = PredicateExpressionNode (AtomPredicateNode A) /\
        exprAtom2script A "" = (cs, Nil) /\ cs <> ""%string /\ subject = Some cs
  end.

(** The else-value of the chain: the script of the else-argument, or [null]. *)
Definition elseScript `{api : AstApi} (Else : option FunctionArg) (els : string) : Prop :=
  match Else with
  | None => els = "null"%string
  | Some a => handleArg a "" = (els, Nil)
  end.

Definition branchTranslates `{api : AstApi} (b : FunctionArg * FunctionArg) : Prop :=
  snd (handleArg (fst b) "") = Nil /\ snd (handleArg (snd b) "") = Nil.

Definition branchScripts `{api : AstApi} (b : FunctionArg * FunctionArg) : string * string :=
  (argScript (fst b), argScript (snd b)).

(** [$CAST_<KIND>(<args...>, source)], after the words of the specification. *)
Definition castScript (kind : string) (args : list string) (source : string) : string :=
  "$CAST_" ++ kind ++ "(" ++ String.concat "" (List.map (fun a => a ++ ", ") args)
    ++ source ++ ")".

(** A size argument: the number, or [0] when it is not positive. *)
Definition sizeArg (d : Z) : string :=
  if (0 <? d)%Z then FormatInt d else "0".

(** A charset argument: the escaped charset between single quotes, or the
    empty literal. *)
Definition charsetArg `{api : AstApi} (cs : option string) : string :=
  match cs with
  | Some cs => "'" ++ misc_Escape cs ++ "'"
  | None => "''"
  end.

(** The CAST table of the specification: the kind and the leading
    arguments for each target type; no entry for a cast to BINARY or JSON,
    nor for a type outside the table. *)
Definition castTable `{api : AstApi} (cast : ConvertDataType) : option (string * list string) :=
  match cdt_Type cast with
  | CastToUnsigned | CastToUnsignedInteger => Some ("UNSIGNED"%string, [])
  | CastToSigned | CastToSignedInteger => Some ("SIGNED"%string, [])
  | CastToNChar => Some ("NCHAR"%string, [sizeArg (fst (cdt_Dimensions cast))])
  | CastToChar =>
      Some ("CHAR"%string,
            [sizeArg (fst (cdt_Dimensions cast)); charsetArg (cdt_Charset cast)])
  | CastToDate => Some ("DATE"%string, [])
  | CastToDateTime => Some ("DATETIME"%string, [])
  | CastToTime => Some ("TIME"%string, [])
  | CastToDecimal =>
      Some ("DECIMAL"%string,
            [sizeArg (fst (cdt_Dimensions cast)); sizeArg (snd (cdt_Dimensions cast))])
  | CastToBinary | CastToJson | CastTypeOther _ => None
  end.

(** The text the branch loop of a CASE writes, branch by branch, for the
    branch at index [i] onwards. *)
Fixpoint loopText (subject : option string) (i : nat) (branches : list (string * string))
  : string :=
  match branches with
  | [] => ""
  | (when, then_) :: rest =>
      (if (0 <? i)%nat then ", " else "") ++ "$IF(" ++ ifCondition subject when
        ++ ", " ++ then_ ++ loopText subject (S i) rest
  end.

(** The comparison symbol of the scripting dialect. *)
Definition comparisonSymbol `{api : AstApi} (op : Comparison) : string :=
  match op with
  | Ceq => "=="
  | Cne => "!="
  | _ => cmp_WriteTo op
  end.

(** ** A concrete choice of the collaborators, to run examples *)

Module Sample.

Definition backslash : Ascii.ascii := Ascii.ascii_of_nat 92.

Fixpoint escapeSingleQuote (s : string) : string :=
  match s with
  | EmptyString => EmptyString
  | String c rest =>
      if Ascii.eqb c "'"%char
      then String backslash (String c (escapeSingleQuote rest))
      else String c (escapeSingleQuote rest)
  end.

Definition constantText (v : GoValue) : string :=
  match v with
  | GoNil => "NULL"
  | GoInt n => FormatInt n
  | GoString s => "'" ++ escapeSingleQuote s ++ "'"
  | GoBool true => "true"
  | GoBool false => "false"
  | GoOpaque t => t
  end.

Definition restoreText (arg : FunctionArg) : string :=
  match arg with
  | mkFunctionArg _ (DynValue v) => constantText v
  | _ => ""
  end.

Definition comparisonText (op : Comparison) : string :=
  match op with
  | Ceq => "="
  | Cne => "<>"
  | ComparisonOther 3 => ">"
  | ComparisonOther 4 => ">="
  | ComparisonOther 5 => "<"
  | ComparisonOther 6 => "<="
  | ComparisonOther _ => ""
  end.

Definition api : AstApi := {|
  constant_String := constantText;
  arg_Restore := restoreText;
  cmp_WriteTo := comparisonText;
  misc_Escape := escapeSingleQuote;
  FuncUnary := "$UNARY"
|}.

Definition engine : ScriptEngine := {|
  vm_Eval := fun script _ => (GoString script, None)
|}.

(** Nodes of the examples. *)
Definition atomX : ExpressionAtom := AtomConstant (GoOpaque "x").

Definition atomOf (a : ExpressionAtom) : ExpressionNode :=
  PredicateExpressionNode (AtomPredicateNode a).

Definition constArg (v : GoValue) : FunctionArg :=
  mkFunctionArg FunctionArgConstant (DynValue v).

Definition exprArg (a : ExpressionAtom) : FunctionArg :=
  mkFunctionArg FunctionArgExpression (DynExpression (atomOf a)).

Definition column : ExpressionAtom := AtomColumnName ["t"; "c"].

Definition twoPlusOne : ExpressionAtom :=
  AtomMath (mkMath (AtomConstant (GoInt 2)) "+" (AtomConstant (GoInt 1))).

Definition caseABC : CaseWhenElseFunction :=
  mkCaseWhenElse (Some (atomOf twoPlusOne))
    [(constArg (GoInt 1), constArg (GoString "A"));
     (constArg (GoInt 2), constArg (GoString "B"));
     (constArg (GoInt 3), constArg (GoString "C"))]
    (Some (constArg (GoString "*"))).

Definition castChar10Utf8 : CastFunction :=
  mkCastFunction (Some (mkConvertDataType CastToChar (10, 0)%Z (Some "utf8"))) None
    (atomOf atomX).

Definition castOther : CastFunction :=
  mkCastFunction (Some (mkConvertDataType (CastTypeOther 0) (0, 0)%Z None)) None
    (atomOf atomX).

Definition intervalFiveSeconds : ExpressionAtom :=
  AtomInterval (AtomPredicateNode atomX) 5000000000.

(** [(1 = 2)] as a nested atom: the parenthesized expression is a comparison,
    not a single atom. *)
Definition nestedComparison : ExpressionAtom :=
  AtomNested (PredicateExpressionNode
    (BinaryComparisonPredicateNode (AtomPredicateNode (AtomConstant (GoInt 1))) Ceq
       (AtomPredicateNode (AtomConstant (GoInt 2))))).

(** [SUM(...) + c]: an aggregate call on the left of a column. *)
Definition aggrPlusColumn : MathExpressionAtom :=
  mkMath (AtomFunctionCall DynAggrFunction) "+" column.

(** [f(1, 1 <> 2)] and [-(x >= 1)] *)
Definition compareArg (op : Comparison) : FunctionArg :=
  mkFunctionArg FunctionArgExpression
    (DynExpression (PredicateExpressionNode
       (BinaryComparisonPredicateNode (AtomPredicateNode atomX) op
          (AtomPredicateNode (AtomConstant (GoInt 1)))))).

Definition unaryCompare (op : Comparison) : ExpressionAtom :=
  AtomUnary "-" (DynPredicate
    (BinaryComparisonPredicateNode (AtomPredicateNode atomX) op
       (AtomPredicateNode (AtomConstant (GoInt 1))))).

(** [CAST((1 = 2) AS UNSIGNED)]: the source is a comparison. *)
Definition castOverComparison : CastFunction :=
  mkCastFunction (Some (mkConvertDataType CastToUnsigned (0, 0)%Z None)) None
    (PredicateExpressionNode
       (BinaryComparisonPredicateNode (AtomPredicateNode (AtomConstant (GoInt 1))) Ceq
          (AtomPredicateNode (AtomConstant (GoInt 2))))).

(** [ABS(t.c)] with the column as an expression argument, and [ABS(1)]. *)
Definition absOfColumn : Function := mkFunction "ABS" [exprArg column].
Definition absOfOne : Function := mkFunction "ABS" [constArg (GoInt 1)].

End Sample.

(** ** Induction over trees *)

Section TreeInduction.
Variable PA : ExpressionAtom -> Prop.
Variable PM : MathExpressionAtom -> Prop.
Variable PP : PredicateNode -> Prop.
Variable PE : ExpressionNode -> Prop.
Variable PD : Dyn -> Prop.
Variable PF : Function -> Prop.
Variable PG : FunctionArg -> Prop.
Variable PC : CastFunction -> Prop.
Variable PW : CaseWhenElseFunction -> Prop.

Hypothesis HInterval : forall v ns, PP v -> PA (AtomInterval v ns).
Hypothesis HMath : forall m, PM m -> PA (AtomMath m).
Hypothesis HConstant : forall v, PA (AtomConstant v).
Hypothesis HUnary : forall op d, PD d -> PA (AtomUnary op d).
Hypothesis HColumn : forall n, PA (AtomColumnName n).
Hypothesis HNested : forall e, PE e -> PA (AtomNested e).
Hypothesis HVariable : forall n, PA (AtomVariable n).
Hypothesis HCall : forall d, PD d -> PA (AtomFunctionCall d).
Hypothesis HOther : forall t, PA (AtomOther t).
Hypothesis HmkMath : forall l op r, PA l -> PA r -> PM (mkMath l op r).
Hypothesis HAtomPredicate : forall a, PA a -> PP (AtomPredicateNode a).
Hypothesis HBinary : forall l op r, PP l -> PP r -> PP (BinaryComparisonPredicateNode l op r).
Hypothesis HPredicateOther : forall t, PP (PredicateOther t).
Hypothesis HPredicateExpression : forall p, PP p -> PE (PredicateExpressionNode p).
Hypothesis HExpressionOther : forall t, PE (ExpressionOther t).
Hypothesis HDynValue : forall v, PD (DynValue v).
Hypothesis HDynAtom : forall a, PA a -> PD (DynAtom a).
Hypothesis HDynPredicate : forall p, PP p -> PD (DynPredicate p).
Hypothesis HDynExpression : forall e, PE e -> PD (DynExpression e).
Hypothesis HDynFunction : forall f, PF f -> PD (DynFunction f).
Hypothesis HDynAggr : PD DynAggrFunction.
Hypothesis HDynCast : forall c, PC c -> PD (DynCastFunction c).
Hypothesis HDynCase : forall c, PW c -> PD (DynCaseWhenElseFunction c).
Hypothesis HFunction : forall n args, Forall PG args -> PF (mkFunction n args).
Hypothesis HArg : forall ty v, PD v -> PG (mkFunctionArg ty v).
Hypothesis HCast : forall c cs src, PE src -> PC (mkCastFunction c cs src).
Hypothesis HCase : forall c bs els,
  (forall e, c = Some e -> PE e) ->
  Forall (fun b => PG (fst b) /\ PG (snd b)) bs ->
  (forall a, els = Some a -> PG a) ->
  PW (mkCaseWhenElse c bs els).

Fixpoint atom_tree_ind (a : ExpressionAtom) : PA a :=
  match a with
  | AtomInterval v ns => HInterval v ns (predicate_tree_ind v)
  | AtomMath m => HMath m (math_tree_ind m)
  | AtomConstant v => HConstant v
  | AtomUnary op d => HUnary op d (dyn_tree_ind d)
  | AtomColumnName n => HColumn n
  | AtomNested e => HNested e (expression_tree_ind e)
  | AtomVariable n => HVariable n
  | AtomFunctionCall d => HCall d (dyn_tree_ind d)
  | AtomOther t => HOther t
  end
with math_tree_ind (m : MathExpressionAtom) : PM m :=
  match m with
  | mkMath l op r => HmkMath l op r (atom_tree_ind l) (atom_tree_ind r)
  end
with predicate_tree_ind (p : PredicateNode) : PP p :=
  match p with
  | AtomPredicateNode a => HAtomPredicate a (atom_tree_ind a)
  | BinaryComparisonPredicateNode l op r =>
      HBinary l op r (predicate_tree_ind l) (predicate_tree_ind r)
  | PredicateOther t => HPredicateOther t
  end
with expression_tree_ind (e : ExpressionNode) : PE e :=
  match e with
  | PredicateExpressionNode p => HPredicateExpression p (predicate_tree_ind p)
  | ExpressionOther t => HExpressionOther t
  end
with dyn_tree_ind (d : Dyn) : PD d :=
  match d with
  | DynValue v => HDynValue v
  | DynAtom a => HDynAtom a (atom_tree_ind a)
  | DynPredicate p => HDynPredicate p (predicate_tree_ind p)
  | DynExpression e => HDynExpression e (expression_tree_ind e)
  | DynFunction f => HDynFunction f (function_tree_ind f)
  | DynAggrFunction => HDynAggr
  | DynCastFunction c => HDynCast c (cast_tree_ind c)
  | DynCaseWhenElseFunction c => HDynCase c (case_tree_ind c)
  end
with function_tree_ind (f : Function) : PF f :=
  match f with
  | mkFunction n args =>
      HFunction n args
        ((fix all (l : list FunctionArg) : Forall PG l :=
            match l with
            | [] => @Forall_nil _ PG
            | x :: r => @Forall_cons _ PG x r (arg_tree_ind x) (all r)
            end) args)
  end
with arg_tree_ind (g : FunctionArg) : PG g :=
  match g with
  | mkFunctionArg ty v => HArg ty v (dyn_tree_ind v)
  end
with cast_tree_ind (c : CastFunction) : PC c :=
  match c with
  | mkCastFunction t cs src => HCast t cs src (expression_tree_ind src)
  end
with case_tree_ind (c : CaseWhenElseFunction) : PW c :=
  match c with
  | mkCaseWhenElse s bs els =>
      HCase s bs els
        (fun e (E : s = Some e) =>
           match s as s0 return s0 = Some e -> PE e with
           | Some e0 => fun E0 =>
               eq_ind e0 PE (expression_tree_ind e0) e
                 (f_equal (fun o => match o with Some x => x | None => e0 end) E0)
           | None => fun E0 =>
               False_ind _ (eq_ind None (fun o => match o with None => True | Some _ => False end) I _ E0)
           end E)
        ((fix all (l : list (FunctionArg * FunctionArg))
            : Forall (fun b => PG (fst b) /\ PG (snd b)) l :=
            match l with
            | [] => @Forall_nil _ _
            | (w, t) :: r =>
                @Forall_cons _ (fun b => PG (fst b) /\ PG (snd b)) (w, t) r
                  (conj (arg_tree_ind w) (arg_tree_ind t)) (all r)
            end) bs)
        (fun a (E : els = Some a) =>
           match els as o return o = Some a -> PG a with
           | Some a0 => fun E0 =>
               eq_ind a0 PG (arg_tree_ind a0) a
                 (f_equal (fun o => match o with Some x => x | None => a0 end) E0)
           | None => fun E0 =>
               False_ind _ (eq_ind None (fun o => match o with None => True | Some _ => False end) I _ E0)
           end E)
  end.

End TreeInduction.

(** The same induction in the form the translator needs: a property of each
    translator function, with the properties of the nodes reached through a
    predicate, an expression or an interface value read off their shape. *)
Section TranslatorShapes.
Variable QA : ExpressionAtom -> Prop.
Variable QP : PredicateNode -> Prop.
Variable QF : Function -> Prop.
Variable QC : CastFunction -> Prop.
Variable QW : CaseWhenElseFunction -> Prop.

Definition liftP (p : PredicateNode) : Prop :=
  QP p /\
  match p with
  | BinaryComparisonPredicateNode l _ r => QP l /\ QP r
  | _ => True
  end.

Definition liftE (e : ExpressionNode) : Prop :=
  match e with
  | PredicateExpressionNode p => liftP p
  | ExpressionOther _ => True
  end.

Definition liftD (d : Dyn) : Prop :=
  match d with
  | DynAtom a => QA a
  | DynPredicate p => liftP p
  | DynExpression e => liftE e
  | DynFunction f => QF f
  | DynCastFunction c => QC c
  | DynCaseWhenElseFunction c => QW c
  | DynValue _ | DynAggrFunction => True
  end.

End TranslatorShapes.

(** A translator function only appends: what it writes and how it ends do
    not depend on what the builder already holds. *)
Definition appendsOnly (f : Builder -> Builder * outcome) : Prop :=
  exists (t : string) (o : outcome), forall sb, f sb = ((sb ++ t)%string, o).

(** ** Outcomes *)

Definition isPanic (o : outcome) : bool :=
  match o with
  | Panic _ => true
  | _ => false
  end.

(** How a walk that meets its first column reference under [n] interval
    literals ends, and how a walk that meets none ends. *)
Definition verdict (c : option nat) : outcome :=
  match c with
  | None => Nil
  | Some n => Err (withStacks n ErrCannotEvalWithColumnName)
  end.

(** A column reference anywhere in a tree: a column atom, or an argument of
    type column. *)
Definition isColumnAtom (a : ExpressionAtom) : bool :=
  match a with
  | AtomColumnName _ => true
  | _ => false
  end.

Definition isColumnArg (arg : FunctionArg) : bool :=
  match arg with
  | mkFunctionArg FunctionArgColumn _ => true
  | _ => false
  end.

Definition notColumnAtom (a : ExpressionAtom) : bool := negb (isColumnAtom a).
Definition notColumnArg (arg : FunctionArg) : bool := negb (isColumnArg arg).
Definition anyCast (c : CastFunction) : bool := true.
Definition anyCase (c : CaseWhenElseFunction) : bool := true.

Definition containsColumn (d : Dyn) : bool :=
  negb (everywhereDyn notColumnAtom notColumnArg anyCast anyCase d).

(** No interval literal of the tree has a column reference inside. *)
Definition intervalClear (a : ExpressionAtom) : bool :=
  match a with
  | AtomInterval Value _ =>
      everywherePredicate notColumnAtom notColumnArg anyCast anyCase Value
  | _ => true
  end.

Definition anyArg (arg : FunctionArg) : bool := true.

Definition intervalsClear : Dyn -> bool :=
  everywhereDyn intervalClear anyArg anyCast anyCase.

(** The callees [exprAtom2script] renders inside a function-call atom. *)
Definition isCallee (F : Dyn) : bool :=
  match F with
  | DynFunction _ | DynCastFunction _ | DynCaseWhenElseFunction _ => true
  | _ => false
  end.

(** The nodes [compute] accepts. *)
Definition isScriptSource (source : Dyn) : bool :=
  match source with
  | DynCaseWhenElseFunction _ | DynCastFunction _ | DynFunction _
  | DynAtom (AtomMath _) => true
  | _ => false
  end.

(** ** Abbreviations for the shape checks *)

Abbreviation supportedAtom := (everywhereAtom atomSupported argSupported castSupported caseSupported).
Abbreviation supportedMath := (everywhereMath atomSupported argSupported castSupported caseSupported).
Abbreviation supportedPredicate :=
  (everywherePredicate atomSupported argSupported castSupported caseSupported).
Abbreviation supportedFunction :=
  (everywhereFunction atomSupported argSupported castSupported caseSupported).
Abbreviation supportedArg := (everywhereArg atomSupported argSupported castSupported caseSupported).
Abbreviation supportedCast := (everywhereCast atomSupported argSupported castSupported caseSupported).
Abbreviation supportedCase := (everywhereCase atomSupported argSupported castSupported caseSupported).

Abbreviation clearAtom := (everywhereAtom intervalClear anyArg anyCast anyCase).
Abbreviation clearMath := (everywhereMath intervalClear anyArg anyCast anyCase).
Abbreviation clearPredicate := (everywherePredicate intervalClear anyArg anyCast anyCase).
Abbreviation clearFunction := (everywhereFunction intervalClear anyArg anyCast anyCase).
Abbreviation clearArg := (everywhereArg intervalClear anyArg anyCast anyCase).
Abbreviation clearCast := (everywhereCast intervalClear anyArg anyCast anyCase).
Abbreviation clearCase := (everywhereCase intervalClear anyArg anyCast anyCase).
Abbreviation noColumnAtom := (everywhereAtom notColumnAtom notColumnArg anyCast anyCase).
Abbreviation noColumnMath := (everywhereMath notColumnAtom notColumnArg anyCast anyCase).
Abbreviation noColumnPredicate := (everywherePredicate notColumnAtom notColumnArg anyCast anyCase).
Abbreviation noColumnFunction := (everywhereFunction notColumnAtom notColumnArg anyCast anyCase).
Abbreviation noColumnArg := (everywhereArg notColumnAtom notColumnArg anyCast anyCase).
Abbreviation noColumnCast := (everywhereCast notColumnAtom notColumnArg anyCast anyCase).
Abbreviation noColumnCase := (everywhereCase notColumnAtom notColumnArg anyCast anyCase).

(** The first column reference read off the tree: none when the tree holds
    no column reference, else one under no interval literal. *)
Definition found (none : bool) : option nat := if none then None else Some O.

(** ** Further definitions: argument lists, cached results, configuration *)

(** The text the argument loop of [function2script] writes for the arguments
    at index [i] onwards, given their scripts. *)
Fixpoint argsText (i : nat) (scripts : list string) : string :=
  match scripts with
  | [] => ""
  | s :: rest => (if (0 <? i)%nat then ", " else "") ++ s ++ argsText (S i) rest
  end.

Definition argTranslates `{api : AstApi} (g : FunctionArg) : Prop :=
  snd (handleArg g "") = Nil.

(** The result slots of a script computer after its run, from what the
    translator returned: a panic leaves both slots at their zero value. *)
Definition slotsOf (r : Builder * outcome) : string * option error :=
  match r with
  | (s, Nil) => (s, None)
  | (_, Err e) => (""%string, Some e)
  | (_, Panic _) => (""%string, None)
  end.

(** How a first [compute] returns, from what the translator returned. *)
Definition firstResult (r : Builder * outcome) : result (string * option error) :=
  match snd r with
  | Panic p => Panicked p
  | _ => Returned (slotsOf r)
  end.

(** The translator events a front-end call adds: one run when the key is not
    cached, none when it is. *)
Definition expectedRuns (node : Dyn) (cached : option nat) : list event :=
  match cached with
  | Some _ => []
  | None => [EvTranslate node]
  end.

(** What a front end does with the result of [build], and the engine events
    it adds. *)
Definition afterBuild `{engine : ScriptEngine} (args : list GoValue)
    (r : result (string * option error))
  : result (GoValue * option error) * list event :=
  match r with
  | Returned (s, None) => (Returned (vm_Eval s args), [EvEngine s args])
  | Returned (_, Some err) => (Returned (GoNil, Some err), [])
  | Panicked p => (Panicked p, [])
  end.

(** The events a step from [w] to [w'] added to the trace. *)
Definition newEvents (w w' : world) : list event :=
  skipn (List.length (trace w)) (trace w').

(** Every script computer cached under key [k] has run and holds [slots]. *)
Definition cachedSlots (k : key) (slots : string * option error) (w : world) : Prop :=
  forall a, In (k, a) (cache w) ->
    exists sc, heap w !! a = Some sc /\ once_done sc = true /\
               (sc_script sc, sc_err sc) = slots.

Definition isTranslateEvent (e : event) : bool := negb (isEngineEvent e).

(** The configuration model (package [config]). *)
Module Config.

(** Errors of the package: [errors.New] and [errors.Errorf] values, and the
    [*strconv.NumError] that [strconv.Atoi] returns. *)
Inductive numErr : Type :=
| ErrSyntax
| ErrRange.

Inductive configError : Type :=
| CfgNew (msg : string)
| CfgErrorf (format : string) (arg : string)
| NumError (Func : string) (Num : string) (Err : numErr).

(** [Node], a data source node. *)
Record Node : Type := mkNode {
  Name : string;
  Host : string;
  Port : Z;
  Username : string;
  Password : string;
  Database : string;
  ConnProps : list (string * string);
  Weight : string;
  Labels : list (string * string)
}.

Definition isDigit (c : ascii) : bool :=
  match c with
  | "0" | "1" | "2" | "3" | "4" | "5" | "6" | "7" | "8" | "9" => true
  | _ => false
  end%char.

(** The longest prefix of digits, and the rest. *)
Fixpoint spanDigits (s : string) : string * string :=
  match s with
  | EmptyString => (EmptyString, EmptyString)
  | String c rest =>
      if isDigit c
      then let (d, r) := spanDigits rest in (String c d, r)
      else (EmptyString, s)
  end.

Definition isOneOf (a b : ascii) (c : ascii) : bool := Ascii.eqb c a || Ascii.eqb c b.

(** [_weightRegexp.FindStringSubmatch] for the pattern
    [^[rR]([0-9]+)[wW]([0-9]+)$]: the two groups, or [None] when the string
    does not match.  The pattern is anchored at both ends and its classes
    are disjoint, so the match is found by reading the string once: one of
    [r], [R]; the longest non-empty run of digits; one of [w], [W]; a
    non-empty run of digits up to the end of the text. *)
Definition weightSubmatch (s : string) : option (string * string) :=
  match s with
  | String c rest =>
      if isOneOf "r" "R" c then
        match spanDigits rest with
        | (String d ds, String c' rest') =>
            if isOneOf "w" "W" c' then
              match spanDigits rest' with
              | (String e es, EmptyString) => Some (String d ds, String e es)
              | _ => None
              end
            else None
        | _ => None
        end
      else None
  | EmptyString => None
  end.

(** The range of [int] on a 64-bit platform. *)
Definition maxInt : Z := 9223372036854775807.
Definition minInt : Z := -9223372036854775808.

(** [strconv.Atoi]: an optional sign and at least one decimal digit; a
    syntax error otherwise, a range error when the value does not fit. *)
Definition Atoi (s : string) : Z + configError :=
  let (neg, body) :=
    match s with
    | String "-" r => (true, r)
    | String "+" r => (false, r)
    | _ => (false, s)
    end in
  match body with
  | EmptyString => inr (NumError "Atoi" s ErrSyntax)
  | _ =>
      match NilEmpty.uint_of_string body with
      | None => inr (NumError "Atoi" s ErrSyntax)
      | Some d =>
          let v := Z.of_N (N.of_uint d) in
          let v := if neg then (- v)%Z else v in
          if ((minInt <=? v) && (v <=? maxInt))%Z then inl v
          else inr (NumError "Atoi" s ErrRange)
      end
  end.

(** The method [GetReadAndWriteWeight] of a node: the read weight, the write
    weight and the error. *)
Definition GetReadAndWriteWeight (d : Node) : Z * Z * option configError :=
  match weightSubmatch (Weight d) with
  | None => (0%Z, 0%Z, Some (CfgNew "weight config should be r10w10"))
  | Some (item1, item2) =>
      match Atoi item1 with
      | inr err => (0%Z, 0%Z, Some err)
      | inl readWeight =>
          match Atoi item2 with
          | inr err => (0%Z, 0%Z, Some err)
          | inl writeWeight => (readWeight, writeWeight, None)
          end
      end
  end.

(** A weight string of the expected form, after the pattern: a letter [r] or
    [R], digits [a], a letter [w] or [W], digits [b]. *)
Fixpoint allDigits (s : string) : bool :=
  match s with
  | EmptyString => true
  | String c rest => isDigit c && allDigits rest
  end.

Definition weightForm (s : string) (a b : string) : Prop :=
  exists c1 c2,
    s = String c1 (a ++ String c2 b) /\
    isOneOf "r" "R" c1 = true /\ isOneOf "w" "W" c2 = true /\
    allDigits a = true /\ a <> EmptyString /\
    allDigits b = true /\ b <> EmptyString.

(** The number a string of digits denotes. *)
Definition digitsValue (s : string) : Z :=
  match NilEmpty.uint_of_string s with
  | Some d => Z.of_N (N.of_uint d)
  | None => 0
  end.

Definition nodeWithWeight (weight : string) : Node :=
  mkNode "" "" 0 "" "" "" [] weight [].

(** [ProtocolType]: its two named values, and any other value of the
    underlying integer type. *)
Inductive ProtocolType : Type :=
| MySQL
| Http
| ProtocolTypeOther (code : Z).

(** ASCII lower case, byte by byte. *)
Definition lowerByte (c : ascii) : ascii :=
  let n := nat_of_ascii c in
  if ((65 <=? n) && (n <=? 90))%nat then ascii_of_nat (n + 32) else c.

Fixpoint asciiLower (s : string) : string :=
  match s with
  | EmptyString => EmptyString
  | String c rest => String (lowerByte c) (asciiLower rest)
  end.

Definition upperByte (c : ascii) : ascii :=
  let n := nat_of_ascii c in
  if ((97 <=? n) && (n <=? 122))%nat then ascii_of_nat (n - 32) else c.

Fixpoint asciiUpper (s : string) : string :=
  match s with
  | EmptyString => EmptyString
  | String c rest => String (upperByte c) (asciiUpper rest)
  end.

Fixpoint isASCII (s : string) : bool :=
  match s with
  | EmptyString => true
  | String c rest => (nat_of_ascii c <? 128)%nat && isASCII rest
  end.

Section Protocol.
(** [bytes.ToLower], whose Unicode tables are not part of the model. *)
Variable bytes_ToLower : string -> string.

(** [unmarshalText]: the new value of the target, [None] when the text is
    not recognised (the Go function then returns false and leaves the target
    alone). *)
Definition unmarshalText (text : string) : option ProtocolType :=
  if String.eqb text "mysql" then Some MySQL
  else if String.eqb text "http" then Some Http
  else None.

(** [UnmarshalText] on the target [t] ([None] for a nil pointer, else the
    value it points to): the value of the target afterwards, and the
    error. *)
Definition UnmarshalText (t : option ProtocolType) (text : string)
  : option ProtocolType * option configError :=
  match t with
  | None => (None, Some (CfgNew "can't unmarshal a nil *ProtocolType"))
  | Some old =>
      match unmarshalText (bytes_ToLower text) with
      | Some v => (Some v, None)
      | None => (Some old, Some (CfgErrorf "unrecognized protocol type: %q" text))
      end
  end.

End Protocol.

End Config.

(** More nodes for examples. *)
Module Cases.

(** [IF(x = 1, 1, 2)] *)
Definition ifCall : Function :=
  mkFunction "IF" [Sample.compareArg Ceq; Sample.constArg (GoInt 1);
                   Sample.constArg (GoInt 2)].

(** [CONCAT(1, t.c, 2)] with the column as an expression argument. *)
Definition concatWithColumn : Function :=
  mkFunction "CONCAT" [Sample.constArg (GoInt 1); Sample.exprArg Sample.column;
                       Sample.constArg (GoInt 2)].

(** [DATE_ADD(1, INTERVAL t.c DAY)]: a column under an interval literal. *)
Definition dateAddColumn : Function :=
  mkFunction "DATE_ADD"
    [Sample.constArg (GoInt 1);
     Sample.exprArg (AtomInterval (AtomPredicateNode Sample.column) 86400000000000)].

(** [ABS((1 = 2))]: translation panics on the parenthesized comparison. *)
Definition absOfNested : Function :=
  mkFunction "ABS" [Sample.exprArg Sample.nestedComparison].

(** [1 = 2], a comparison of two constants. *)
Definition oneIsTwo : PredicateNode :=
  BinaryComparisonPredicateNode (AtomPredicateNode (AtomConstant (GoInt 1))) Ceq
    (AtomPredicateNode (AtomConstant (GoInt 2))).


(** [ABS(v)] with an argument whose type is none of the listed kinds. *)
Definition absOfUnlisted : Function :=
  mkFunction "ABS" [mkFunctionArg (FunctionArgTypeOther 0) (DynValue GoNil)].

End Cases.

(** ** Concurrent callers of [build]

    The cache serialises [Get] and [PeekOrAdd] under its lock, and
    [sync.Once.Do] holds its mutex while the function runs, so that a second
    caller's [Do] waits for the first: a caller of [build] takes at most
    three atomic steps on the shared state, and callers interleave between
    these steps.  Allocating the newborn computer touches no shared object
    and is joined to the [PeekOrAdd] step. *)







(** * Properties *)

(** ** Strings and sequencing *)

Lemma append_cons (x : ascii) (a b : string) :
  (String x a ++ b = String x (a ++ b))%string.
Proof. reflexivity. Qed.

Lemma append_nil_l (a : string) : ("" ++ a = a)%string.
Proof. reflexivity. Qed.

Lemma append_assoc (a b c : string) : ((a ++ b) ++ c = a ++ (b ++ c))%string.
Proof.
  induction a as [|x a IH]; [reflexivity|].
  rewrite !append_cons. now rewrite IH.
Qed.

Lemma append_nil_r (a : string) : (a ++ "" = a)%string.
Proof.
  induction a as [|x a IH]; [reflexivity|].
  rewrite append_cons. now rewrite IH.
Qed.

Lemma closeParens_append n sb : closeParens n sb = (sb ++ closeParens n "")%string.
Proof.
  revert sb; induction n as [|n IH]; intros sb; simpl.
  - now rewrite append_nil_r.
  - rewrite IH, (IH (WriteByte ")" "")). unfold WriteByte.
    now rewrite append_assoc.
Qed.


(** ** The translator functions, equation by equation *)

Section TranslatorFacts.
Context `{api : AstApi}.

Lemma function2script_eq Name Args sb :
  function2script (mkFunction Name Args) sb =
  andThen (rangeArgs handleArg O Args (WriteByte "(" (writeFuncName Name sb)))
          (fun sb => (WriteByte ")" sb, Nil)).
Proof. reflexivity. Qed.

Lemma caseWhenFunction2script_eq Case Branches Else sb :
  caseWhenFunction2script (mkCaseWhenElse Case Branches Else) sb =
  match caseHeader Case with
  | (caseScript, Nil) =>
      andThen (rangeBranches handleArg caseScript O Branches sb)
        (fun sb =>
           let sb := WriteString ", " sb in
           andThen
             match Else with
             | Some els => handleArg els sb
             | None => (WriteString "null" sb, Nil)
             end
             (fun sb => (closeParens (List.length Branches) sb, Nil)))
  | (_, o) => (sb, o)
  end.
Proof. reflexivity. Qed.

Lemma castFunction2script_eq GetCast GetCharset Source sb :
  castFunction2script (mkCastFunction GetCast GetCharset Source) sb =
  andThen (castHeader GetCast GetCharset sb) (fun sb =>
    match Source with
    | PredicateExpressionNode (AtomPredicateNode next) =>
        andThen (exprAtom2script next sb) (fun sb => (WriteByte ")" sb, Nil))
    | _ => (sb, Panic PanicTypeAssertion)
    end).
Proof. reflexivity. Qed.

(** The induction scheme of the translator. *)
Lemma translator_ind
    (QA : ExpressionAtom -> Prop) (QM : MathExpressionAtom -> Prop)
    (QP : PredicateNode -> Prop) (QF : Function -> Prop) (QG : FunctionArg -> Prop)
    (QC : CastFunction -> Prop) (QW : CaseWhenElseFunction -> Prop) :
  (forall v ns, liftP QP v -> QA (AtomInterval v ns)) ->
  (forall m, QM m -> QA (AtomMath m)) ->
  (forall v, QA (AtomConstant v)) ->
  (forall op d, liftD QA QP QF QC QW d -> QA (AtomUnary op d)) ->
  (forall n, QA (AtomColumnName n)) ->
  (forall e, liftE QP e -> QA (AtomNested e)) ->
  (forall n, QA (AtomVariable n)) ->
  (forall d, liftD QA QP QF QC QW d -> QA (AtomFunctionCall d)) ->
  (forall t, QA (AtomOther t)) ->
  (forall l op r, QA l -> QA r -> QM (mkMath l op r)) ->
  (forall a, QA a -> QP (AtomPredicateNode a)) ->
  (forall l op r, QP (BinaryComparisonPredicateNode l op r)) ->
  (forall t, QP (PredicateOther t)) ->
  (forall n args, Forall QG args -> QF (mkFunction n args)) ->
  (forall ty v, liftD QA QP QF QC QW v -> QG (mkFunctionArg ty v)) ->
  (forall c cs src, liftE QP src -> QC (mkCastFunction c cs src)) ->
  (forall c bs els,
      (forall e, c = Some e -> liftE QP e) ->
      Forall (fun b => QG (fst b) /\ QG (snd b)) bs ->
      (forall a, els = Some a -> QG a) ->
      QW (mkCaseWhenElse c bs els)) ->
  (forall a, QA a) /\ (forall m, QM m) /\ (forall p, QP p) /\ (forall f, QF f) /\
  (forall g, QG g) /\ (forall c, QC c) /\ (forall c, QW c).
Proof.
  intros HI HM HK HU HCo HN HV HFc HO HmM HAP HB HPO HF HG HC HW.
  assert (A : forall a, QA a).
  { apply (atom_tree_ind QA QM (liftP QP) (liftE QP) (liftD QA QP QF QC QW) QF QG QC QW);
      unfold liftP, liftE, liftD; now auto. }
  assert (M : forall m, QM m) by (intros [l op r]; now apply HmM).
  assert (P : forall p, QP p) by (intros [a | l op r | t]; auto).
  assert (LP : forall p, liftP QP p).
  { intros p. split; [apply P|]. destruct p; auto. }
  assert (LE : forall e, liftE QP e) by (intros [p | t]; simpl; auto).
  assert (G0 : forall d, (forall f, QF f) -> (forall c, QC c) -> (forall c, QW c) ->
                         liftD QA QP QF QC QW d).
  { intros d F C W. destruct d; simpl; auto. }
  assert (FGCW : (forall f, QF f) /\ (forall g, QG g) /\ (forall c, QC c) /\ (forall c, QW c)).
  { assert (C : forall c, QC c) by (intros [c cs src]; apply HC, LE).
    assert (F : forall f, QF f).
    { apply (function_tree_ind QA QM (liftP QP) (liftE QP) (liftD QA QP QF QC QW) QF QG QC QW);
        unfold liftP, liftE, liftD; now auto. }
    assert (W : forall c, QW c).
    { apply (case_tree_ind QA QM (liftP QP) (liftE QP) (liftD QA QP QF QC QW) QF QG QC QW);
        unfold liftP, liftE, liftD; now auto. }
    repeat split; auto.
    intros [ty v]. apply HG, G0; auto. }
  tauto.
Qed.

(** ** The translator only appends *)

Lemma appendsOnly_run f :
  appendsOnly f -> forall sb, f sb = ((sb ++ fst (f ""))%string, snd (f "")).
Proof.
  intros (t & o & E) sb. rewrite (E ""), (E sb). reflexivity.
Qed.

Lemma writeComparison_eq op sb :
  writeComparison op sb = (sb ++ comparisonSymbol op)%string.
Proof. destruct op; reflexivity. Qed.

Ltac frame_open :=
  repeat match goal with
  | H : _ /\ _ |- _ => destruct H
  | H : appendsOnly (handleCompareAtom (BinaryComparisonPredicateNode _ _ _)) |- _ =>
      clear H
  | H : appendsOnly (handleCompareAtom (AtomPredicateNode ?a)) |- _ =>
      change (appendsOnly (exprAtom2script a)) in H
  | H : appendsOnly _ |- _ =>
      let t := fresh "t" in let o := fresh "o" in let E := fresh "E" in
      destruct H as (t & o & E); destruct o
  end.

Ltac frame_rewrite :=
  repeat match goal with
  | E : forall sb, _ = _ |- _ => rewrite E; cbn -[String.append Nat.ltb Z.ltb]
  end.

Ltac frame_close :=
  do 2 eexists; intros sb; cbn -[String.append Nat.ltb Z.ltb];
  rewrite ?writeComparison_eq;
  unfold writeVariable, writeFuncName, WriteString, WriteByte;
  frame_rewrite; rewrite ?writeComparison_eq; frame_rewrite; rewrite ?append_assoc;
  first [ reflexivity | rewrite <- (append_nil_r sb) at 1; reflexivity ].

Lemma castHeader_appendsOnly c cs : appendsOnly (castHeader c cs).
Proof.
  destruct c as [[ty [d0 d1] ch]|]; [destruct ty, ch | destruct cs];
    unfold castHeader, writeDimension; cbn [cdt_Type cdt_Dimensions cdt_Charset fst snd];
    repeat match goal with |- context [if ?b then _ else _] => destruct b end;
    frame_close.
Qed.


Lemma rangeArgs_appendsOnly h args :
  Forall (fun a => appendsOnly (h a)) args -> forall i, appendsOnly (rangeArgs h i args).
Proof.
  induction 1 as [|a args Ha _ IH]; intros i.
  - frame_close.
  - specialize (IH (S i)). destruct (0 <? i)%nat eqn:Ei; frame_open;
      do 2 eexists; intros sb; cbn -[String.append Nat.ltb Z.ltb]; rewrite Ei;
      unfold WriteString, WriteByte; frame_rewrite; rewrite ?append_assoc; reflexivity.
Qed.

Lemma rangeBranches_appendsOnly h cs bs :
  Forall (fun b => appendsOnly (h (fst b)) /\ appendsOnly (h (snd b))) bs ->
  forall i, appendsOnly (rangeBranches h cs i bs).
Proof.
  induction 1 as [|[w t] bs Hb _ IH]; intros i.
  - frame_close.
  - specialize (IH (S i)). cbn [fst snd] in Hb.
    destruct (0 <? i)%nat eqn:Ei, (0 <? String.length cs)%nat eqn:Ec; frame_open;
      do 2 eexists; intros sb; cbn -[String.append Nat.ltb Z.ltb]; rewrite ?Ei, ?Ec;
      unfold writeFuncName, WriteString, WriteByte; frame_rewrite;
      rewrite ?Ec; frame_rewrite; rewrite ?append_assoc; reflexivity.
Qed.

Lemma translator_appendsOnly :
  (forall a, appendsOnly (exprAtom2script a)) /\
  (forall m, appendsOnly (math2script m)) /\
  (forall p, appendsOnly (handleCompareAtom p)) /\
  (forall f, appendsOnly (function2script f)) /\
  (forall g, appendsOnly (handleArg g)) /\
  (forall c, appendsOnly (castFunction2script c)) /\
  (forall c, appendsOnly (caseWhenFunction2script c)).
Proof.
  apply translator_ind.
  - (* interval *) intros [a | l op r | t] ns H; unfold liftD, liftE, liftP in H; frame_open; frame_close.
  - intros m H. exact H.
  - intros v. frame_close.
  - (* unary *) intros op [v | a | [a | l o r | t] | e | f | | c | c] H; unfold liftD, liftE, liftP in H;
      frame_open; frame_close.
  - intros n. frame_close.
  - (* nested *) intros [[a | l op r | t] | t] H; unfold liftD, liftE, liftP in H; frame_open; frame_close.
  - intros n. frame_close.
  - (* function call *) intros [v | a | p | e | f | | c | c] H; unfold liftD, liftE, liftP in H;
      frame_open; frame_close.
  - intros t. frame_close.
  - intros l op r Hl Hr. frame_open; frame_close.
  - intros a H. exact H.
  - intros l op r. frame_close.
  - intros t. frame_close.
  - (* function *) intros n args H.
    pose proof (rangeArgs_appendsOnly handleArg args H O) as H0. clear H.
    frame_open;
      do 2 eexists; intros sb; rewrite function2script_eq;
      unfold writeFuncName, WriteString, WriteByte; frame_rewrite;
      rewrite ?append_assoc; reflexivity.
  - (* argument *)
    intros ty [v | a | p | [[a | l o r | t] | t] | f | | c | c] H;
      unfold liftD, liftE, liftP in H; destruct ty; frame_open; frame_close.
  - (* cast *)
    intros c cs src H. pose proof (castHeader_appendsOnly c cs) as Hh.
    destruct src as [[a | l o r | t] | t]; unfold liftD, liftE, liftP in H;
      frame_open;
      do 2 eexists; intros sb; rewrite castFunction2script_eq;
      unfold WriteString, WriteByte; frame_rewrite;
      rewrite ?append_assoc;
      first [ reflexivity | rewrite <- (append_nil_r sb) at 1; reflexivity ].
  - (* case *)
    intros c bs els Hc Hb He.
    assert (Hels : appendsOnly (fun sb =>
              match els with
              | Some e => handleArg e sb
              | None => (WriteString "null" sb, Nil)
              end)).
    { destruct els as [e|]; [exact (He e eq_refl) | frame_close]. }
    clear He.
    assert (Hh : forall cs o, caseHeader c = (cs, o) ->
              appendsOnly (rangeBranches handleArg cs O bs)).
    { intros cs o _. now apply rangeBranches_appendsOnly. }
    destruct (caseHeader c) as [cs o] eqn:Ec.
    specialize (Hh cs o eq_refl).
    destruct o; frame_open;
      do 2 eexists; intros sb; rewrite caseWhenFunction2script_eq, Ec;
      unfold WriteString, WriteByte; frame_rewrite;
      try rewrite (closeParens_append _ (_ ++ _));
      rewrite ?append_assoc;
      first [ reflexivity | rewrite <- (append_nil_r sb) at 1; reflexivity ].
Qed.

Lemma exprAtom2script_run a x o sb :
  exprAtom2script a "" = (x, o) -> exprAtom2script a sb = ((sb ++ x)%string, o).
Proof.
  intros E. destruct translator_appendsOnly as (H & _).
  rewrite (appendsOnly_run _ (H a) sb), E. reflexivity.
Qed.

Lemma handleArg_run g x o sb :
  handleArg g "" = (x, o) -> handleArg g sb = ((sb ++ x)%string, o).
Proof.
  intros E. destruct translator_appendsOnly as (_ & _ & _ & _ & H & _).
  rewrite (appendsOnly_run _ (H g) sb), E. reflexivity.
Qed.

Lemma handleArg_script g sb :
  handleArg g sb = ((sb ++ argScript g)%string, snd (handleArg g "")).
Proof.
  unfold argScript. destruct (handleArg g "") as [x o] eqn:E.
  now apply handleArg_run.
Qed.

(** X16.  Every translator function only appends to the builder: the text it
    appends for a node, and how it ends, do not depend on what the builder
    already holds. *)
Theorem translation_deterministic :
  (forall node, exists script o, forall sb,
      exprAtom2script node sb = ((sb ++ script)%string, o)) /\
  (forall node, exists script o, forall sb,
      math2script node sb = ((sb ++ script)%string, o)) /\
  (forall node, exists script o, forall sb,
      function2script node sb = ((sb ++ script)%string, o)) /\
  (forall node, exists script o, forall sb,
      castFunction2script node sb = ((sb ++ script)%string, o)) /\
  (forall node, exists script o, forall sb,
      caseWhenFunction2script node sb = ((sb ++ script)%string, o)) /\
  (forall node sb1 sb2,
      snd (exprAtom2script node sb1) = snd (exprAtom2script node sb2) /\
      exists script,
        fst (exprAtom2script node sb1) = (sb1 ++ script)%string /\
        fst (exprAtom2script node sb2) = (sb2 ++ script)%string).
Proof.
  destruct translator_appendsOnly as (A & M & _ & F & _ & C & W).
  repeat split; auto.
  - destruct (A node) as (t & o & E). now rewrite !E.
  - destruct (A node) as (t & o & E). exists t. now rewrite !E.
Qed.

(** C7.  An interval literal over a single-atom predicate whose atom
    translates to [x] renders as [x], then [ * ], then the duration in
    nanoseconds as a decimal integer; five seconds over [x] is
    [x * 5000000000]. *)
Theorem interval_renders_nanoseconds (A : ExpressionAtom) (x : string) :
  exprAtom2script A "" = (x, Nil) ->
  (forall ns sb,
     exprAtom2script (AtomInterval (AtomPredicateNode A) ns) sb =
     ((sb ++ x ++ " * " ++ FormatInt ns)%string, Nil)) /\
  exprAtom2script (AtomInterval (AtomPredicateNode A) 5000000000) "" =
  ((x ++ " * 5000000000")%string, Nil).
Proof.
  intros E.
  assert (G : forall ns sb,
     exprAtom2script (AtomInterval (AtomPredicateNode A) ns) sb =
     ((sb ++ x ++ " * " ++ FormatInt ns)%string, Nil)).
  { intros ns sb. cbn -[String.append]. rewrite (exprAtom2script_run A x Nil sb E).
    unfold WriteString. now rewrite !append_assoc. }
  split; [exact G|]. rewrite G. reflexivity.
Qed.

(** C8.  A binary comparison between two atoms, as a function argument or as
    the operand of a unary operator, renders as the left script, a space, the
    comparison symbol, a space and the right script; the symbol is [==] for
    equality, [!=] for inequality, and the operator's own text for every
    other comparison. *)
Theorem comparison_rendering (l r : ExpressionAtom) (tl tr : string) :
  exprAtom2script l "" = (tl, Nil) ->
  exprAtom2script r "" = (tr, Nil) ->
  (forall op sb,
     handleArg (mkFunctionArg FunctionArgExpression
                  (DynExpression (PredicateExpressionNode
                     (BinaryComparisonPredicateNode
                        (AtomPredicateNode l) op (AtomPredicateNode r))))) sb =
     ((sb ++ tl ++ " " ++ comparisonSymbol op ++ " " ++ tr)%string, Nil)) /\
  (forall op operator sb,
     exprAtom2script (AtomUnary operator (DynPredicate
                        (BinaryComparisonPredicateNode
                           (AtomPredicateNode l) op (AtomPredicateNode r)))) sb =
     ((sb ++ FuncUnary ++ "('" ++ operator ++ "', "
          ++ tl ++ " " ++ comparisonSymbol op ++ " " ++ tr ++ ")")%string, Nil)) /\
  comparisonSymbol Ceq = "=="%string /\
  comparisonSymbol Cne = "!="%string /\
  (forall code, comparisonSymbol (ComparisonOther code) = cmp_WriteTo (ComparisonOther code)).
Proof.
  intros El Er. repeat split.
  - intros op sb. cbn -[String.append].
    rewrite (exprAtom2script_run l tl Nil _ El). cbn -[String.append].
    rewrite writeComparison_eq. unfold WriteByte.
    rewrite (exprAtom2script_run r tr Nil _ Er). now rewrite !append_assoc.
  - intros op operator sb. cbn -[String.append].
    rewrite (exprAtom2script_run l tl Nil _ El). cbn -[String.append].
    rewrite writeComparison_eq. unfold WriteByte, WriteString.
    rewrite (exprAtom2script_run r tr Nil _ Er). cbn -[String.append].
    now rewrite !append_assoc.
Qed.

(** C10 (amended).  A CAST whose target type is present but is none of the
    kinds named in the switch: the switch writes nothing and sets no error,
    and over a source that is a single-atom predicate whose atom translates
    to [x] without error the call returns a nil error and writes [x] and a
    closing parenthesis only, with no [$CAST_] name. *)
Theorem cast_unlisted_type_writes_no_name
    (code : Z) (dims : Z * Z) (charset GetCharset : option string)
    (A : ExpressionAtom) (x : string) (sb : Builder) :
  exprAtom2script A "" = (x, Nil) ->
  castHeader (Some (mkConvertDataType (CastTypeOther code) dims charset)) GetCharset sb =
    (sb, Nil) /\
  castFunction2script
    (mkCastFunction (Some (mkConvertDataType (CastTypeOther code) dims charset))
       GetCharset (PredicateExpressionNode (AtomPredicateNode A))) sb =
  ((sb ++ x ++ ")")%string, Nil).
Proof.
  intros E. split; [reflexivity|].
  rewrite castFunction2script_eq. cbn -[String.append].
  rewrite (exprAtom2script_run A x Nil sb E). cbn -[String.append].
  unfold WriteByte. now rewrite append_assoc.
Qed.

Lemma castHeader_table cast GetCharset kind args sb :
  castTable cast = Some (kind, args) ->
  castHeader (Some cast) GetCharset sb =
  ((sb ++ "$CAST_" ++ kind ++ "(" ++ String.concat "" (List.map (fun a => a ++ ", ") args))%string,
   Nil).
Proof.
  destruct cast as [ty [d0 d1] cs]. unfold castTable, castHeader, writeDimension, sizeArg.
  cbn [cdt_Type cdt_Dimensions cdt_Charset fst snd].
  destruct ty; intros E; inversion E; subst; clear E;
    unfold writeFuncName, _prefixMySQLFunc, WriteString, WriteByte, charsetArg;
    cbn [List.map String.concat];
    repeat match goal with |- context [if ?b then _ else _] => destruct b end;
    try destruct cs; rewrite ?append_assoc; cbn; rewrite ?append_nil_r; reflexivity.
Qed.

(** C4.  The CAST table.  Over a source atom that translates to [x]: a cast
    whose target type has an entry in the table renders as
    [$CAST_<KIND>(<args>, x)], the size arguments of NCHAR, CHAR and DECIMAL
    being [0] when not positive and the charset argument of CHAR the escaped
    charset between single quotes, or [''] when absent; a charset-only cast
    renders as [$CAST_CHARSET('<escaped-charset>', x)]; CHAR with size 10 and
    charset utf8 renders as [$CAST_CHAR(10, 'utf8', x)] and UNSIGNED as
    [$CAST_UNSIGNED(x)]; a cast to BINARY or to JSON returns an error whatever
    the rest of the node. *)
Theorem cast_rendering_table (A : ExpressionAtom) (x : string) :
  exprAtom2script A "" = (x, Nil) ->
  let source := PredicateExpressionNode (AtomPredicateNode A) in
  (forall cast kind args GetCharset sb,
     castTable cast = Some (kind, args) ->
     castFunction2script (mkCastFunction (Some cast) GetCharset source) sb =
     ((sb ++ castScript kind args x)%string, Nil)) /\
  (forall charset sb,
     castFunction2script (mkCastFunction None (Some charset) source) sb =
     ((sb ++ castScript "CHARSET" [charsetArg (Some charset)] x)%string, Nil)) /\
  (forall d, (d <= 0)%Z -> sizeArg d = "0"%string) /\
  (forall d, (0 < d)%Z -> sizeArg d = FormatInt d) /\
  (forall cs, charsetArg (Some cs) = ("'" ++ misc_Escape cs ++ "'")%string) /\
  charsetArg None = "''"%string /\
  (forall d1 GetCharset sb,
     misc_Escape "utf8" = "utf8"%string ->
     castFunction2script
       (mkCastFunction (Some (mkConvertDataType CastToChar (10%Z, d1) (Some "utf8"%string)))
          GetCharset source) sb =
     ((sb ++ "$CAST_CHAR(10, 'utf8', " ++ x ++ ")")%string, Nil)) /\
  (forall dims charset GetCharset sb,
     castFunction2script
       (mkCastFunction (Some (mkConvertDataType CastToUnsigned dims charset))
          GetCharset source) sb =
     ((sb ++ "$CAST_UNSIGNED(" ++ x ++ ")")%string, Nil)) /\
  (forall ty dims charset GetCharset src sb,
     ty = CastToBinary \/ ty = CastToJson ->
     exists msg,
       castFunction2script
         (mkCastFunction (Some (mkConvertDataType ty dims charset)) GetCharset src) sb =
       (sb, Err (ErrNew msg))).
Proof.
  intros E source.
  assert (T : forall cast kind args GetCharset sb,
     castTable cast = Some (kind, args) ->
     castFunction2script (mkCastFunction (Some cast) GetCharset source) sb =
     ((sb ++ castScript kind args x)%string, Nil)).
  { intros cast kind args GetCharset sb H. rewrite castFunction2script_eq.
    rewrite (castHeader_table _ _ _ _ _ H). cbn -[String.append].
    rewrite (exprAtom2script_run A x Nil _ E). cbn -[String.append].
    unfold WriteByte, castScript. now rewrite !append_assoc. }
  split; [exact T|].
  split.
  { intros charset sb. rewrite castFunction2script_eq. cbn -[String.append].
    rewrite (exprAtom2script_run A x Nil _ E). cbn -[String.append].
    unfold writeFuncName, _prefixMySQLFunc, WriteByte, WriteString, castScript, charsetArg.
    cbn [List.map String.concat]. rewrite !append_assoc. reflexivity. }
  split. { intros d Hd. unfold sizeArg. destruct (Z.ltb_spec 0 d); [lia | reflexivity]. }
  split. { intros d Hd. unfold sizeArg. destruct (Z.ltb_spec 0 d); [reflexivity | lia]. }
  split; [reflexivity|]. split; [reflexivity|].
  split.
  { intros d1 GetCharset sb Hesc. rewrite (T _ "CHAR"%string ["10"; "'utf8'"]%string).
    - reflexivity.
    - unfold castTable, charsetArg. cbn. rewrite Hesc. reflexivity. }
  split.
  { intros dims charset GetCharset sb. rewrite (T _ "UNSIGNED"%string []); reflexivity. }
  intros ty dims charset GetCharset src sb [-> | ->]; eexists; reflexivity.
Qed.

Lemma closeParens_snoc n sb :
  (closeParens n sb ++ ")")%string = closeParens n (sb ++ ")")%string.
Proof.
  revert sb; induction n as [|n IH]; intros sb; [reflexivity|].
  cbn [closeParens]. unfold WriteByte. now rewrite IH.
Qed.

Lemma closeParens_S n : closeParens (S n) "" = (closeParens n "" ++ ")")%string.
Proof. now rewrite closeParens_snoc. Qed.

(** The branch loop writes [loopText]. *)
Lemma rangeBranches_text caseScript subject bs :
  (0 <? String.length caseScript)%nat = false /\ subject = None \/
  (0 <? String.length caseScript)%nat = true /\ subject = Some caseScript ->
  Forall branchTranslates bs ->
  forall i sb,
    rangeBranches handleArg caseScript i bs sb =
    ((sb ++ loopText subject i (List.map branchScripts bs))%string, Nil).
Proof.
  intros Hs. induction 1 as [|[w t] bs [Hw Ht] _ IH]; intros i sb.
  - cbn. now rewrite append_nil_r.
  - cbn [fst snd] in Hw, Ht.
    cbn -[String.append Nat.ltb].
    rewrite (handleArg_script w), Hw. cbn -[String.append Nat.ltb].
    rewrite (handleArg_script t), Ht. cbn -[String.append Nat.ltb].
    rewrite IH. unfold branchScripts at 1. cbn [fst snd].
    unfold writeFuncName, _prefixMySQLFunc, WriteString, WriteByte, ifCondition.
    destruct Hs as [[-> ->] | [-> ->]]; destruct (0 <? i)%nat;
      rewrite ?append_assoc; reflexivity.
Qed.

(** Closing one parenthesis per branch turns the text of the loop into the
    right-nested chain. *)
Lemma loopText_chain subject els bs :
  forall i tail, (0 < i)%nat ->
    (loopText subject i bs ++ ", " ++ els ++ closeParens (List.length bs) "" ++ tail)%string =
    (", " ++ ifChain subject bs els ++ tail)%string.
Proof.
  induction bs as [|[w t] bs IH]; intros i tail Hi.
  - reflexivity.
  - cbn [loopText ifChain List.length]. rewrite closeParens_S.
    destruct (Nat.ltb_spec 0 i) as [_|]; [|lia].
    rewrite !append_assoc. rewrite (IH (S i)) by lia. reflexivity.
Qed.

Lemma loopText_chain_first subject els bs :
  (loopText subject O bs ++ ", " ++ els ++ closeParens (List.length bs) "")%string =
  (chainLead bs ++ ifChain subject bs els)%string.
Proof.
  destruct bs as [|[w t] bs]; [cbn; now rewrite append_nil_r|].
  cbn [loopText ifChain List.length chainLead]. rewrite closeParens_S.
  change (0 <? 0)%nat with false. cbn iota.
  rewrite !append_assoc. rewrite (loopText_chain subject els bs 1) by lia. reflexivity.
Qed.

(** C3.  CASE-WHEN-ELSE renders as a right-nested [$IF] chain, one level per
    branch, in branch order, each when-value followed by
    [ == (<subject-script>)] when there is a subject, the else-value (or
    [null]) innermost; the branches (1,'A'), (2,'B'), (3,'C') with subject
    [2 + 1] and else ['*'] give the script of the specification. *)
Theorem case_when_renders_nested_if
    (Case : option ExpressionNode) (Branches : list (FunctionArg * FunctionArg))
    (Else : option FunctionArg) (subject : option string) (els : string) :
  subjectScript Case subject ->
  Forall branchTranslates Branches ->
  elseScript Else els ->
  (forall sb,
     caseWhenFunction2script (mkCaseWhenElse Case Branches Else) sb =
     ((sb ++ chainLead Branches
          ++ ifChain subject (List.map branchScripts Branches) els)%string, Nil)) /\
  (subject = Some "2 + 1"%string ->
   List.map branchScripts Branches = [("1", "'A'"); ("2", "'B'"); ("3", "'C'")]%string ->
   els = "'*'"%string ->
   caseWhenFunction2script (mkCaseWhenElse Case Branches Else) "" =
   ("$IF(1 == (2 + 1), 'A', $IF(2 == (2 + 1), 'B', $IF(3 == (2 + 1), 'C', '*')))"%string,
    Nil)).
Proof.
  intros Hs Hb He.
  assert (G : forall sb,
     caseWhenFunction2script (mkCaseWhenElse Case Branches Else) sb =
     ((sb ++ chainLead Branches
          ++ ifChain subject (List.map branchScripts Branches) els)%string, Nil)).
  { intros sb. rewrite caseWhenFunction2script_eq.
    assert (Hh : exists cs, caseHeader Case = (cs, Nil) /\
              ((0 <? String.length cs)%nat = false /\ subject = None \/
               (0 <? String.length cs)%nat = true /\ subject = Some cs)).
    { destruct Case as [e|]; cbn in Hs.
      - destruct Hs as (A & cs & -> & E & Hne & ->). exists cs. split; [exact E|].
        right. split; [|reflexivity]. destruct cs; [congruence | reflexivity].
      - subst. exists ""%string. split; [reflexivity|]. now left. }
    destruct Hh as (cs & -> & Hcs).
    rewrite (rangeBranches_text cs subject Branches Hcs Hb). cbn -[String.append].
    assert (Hels : forall sb0,
              match Else with
              | Some e => handleArg e sb0
              | None => (WriteString "null" sb0, Nil)
              end = ((sb0 ++ els)%string, Nil)).
    { intros sb0. destruct Else as [e|]; cbn in He.
      - now apply handleArg_run.
      - now subst. }
    rewrite Hels. cbn -[String.append]. rewrite closeParens_append.
    unfold WriteString. rewrite !append_assoc.
    rewrite <- (length_map branchScripts Branches).
    rewrite loopText_chain_first. now destruct Branches. }
  split; [exact G|].
  intros -> Hm ->. rewrite G, Hm.
  destruct Branches as [|b bs]; [discriminate|]. reflexivity.
Qed.

(** ** Where the translator panics *)

Lemma isPanic_andThen r k :
  isPanic (snd r) = false ->
  (forall sb, isPanic (snd (k sb)) = false) ->
  isPanic (snd (andThen r k)) = false.
Proof. destruct r as [sb [|e|p]]; cbn; auto. Qed.

Ltac andb_split :=
  repeat match goal with
  | H : (_ && _)%bool = true |- _ => apply andb_prop in H; destruct H
  end.

Ltac no_panic :=
  cbn -[String.append Nat.ltb Z.ltb];
  repeat (apply isPanic_andThen; [|intros ?]);
  cbn -[String.append Nat.ltb Z.ltb];
  auto.

Section NoPanic.
Variable okA : ExpressionAtom -> bool.
Variable okG : FunctionArg -> bool.
Variable okC : CastFunction -> bool.
Variable okW : CaseWhenElseFunction -> bool.
Hypothesis okA_fatal : forall a, okA a = true -> atomNotFatal a = true.
Hypothesis okG_fatal : forall g, okG g = true -> argValueOk g = true.
Hypothesis okC_fatal : forall c, okC c = true -> castNotFatal c = true.

Lemma rangeArgs_no_panic args :
  Forall (fun g => everywhereArg okA okG okC okW g = true ->
                   forall sb, isPanic (snd (handleArg g sb)) = false) args ->
  (fix all (args : list FunctionArg) : bool :=
     match args with
     | [] => true
     | arg :: rest => everywhereArg okA okG okC okW arg && all rest
     end) args = true ->
  forall i sb, isPanic (snd (rangeArgs handleArg i args sb)) = false.
Proof.
  induction 1 as [|g args Hg _ IH]; intros Hall i sb; [reflexivity|].
  andb_split. cbn -[String.append Nat.ltb]. apply isPanic_andThen; auto.
Qed.

Lemma rangeBranches_no_panic cs bs :
  Forall (fun b =>
     (everywhereArg okA okG okC okW (fst b) = true ->
      forall sb, isPanic (snd (handleArg (fst b) sb)) = false) /\
     (everywhereArg okA okG okC okW (snd b) = true ->
      forall sb, isPanic (snd (handleArg (snd b) sb)) = false)) bs ->
  (fix all (branches : list (FunctionArg * FunctionArg)) : bool :=
     match branches with
     | [] => true
     | (when, then_) :: rest =>
         everywhereArg okA okG okC okW when && everywhereArg okA okG okC okW then_ && all rest
     end) bs = true ->
  forall i sb, isPanic (snd (rangeBranches handleArg cs i bs sb)) = false.
Proof.
  induction 1 as [|[w t] bs [Hw Ht] _ IH]; intros Hall i sb; [reflexivity|].
  andb_split. cbn [fst snd] in Hw, Ht. cbn -[String.append Nat.ltb].
  apply isPanic_andThen; auto. intros sb0.
  apply isPanic_andThen; auto.
Qed.

Lemma translator_no_panic :
  (forall a, everywhereAtom okA okG okC okW a = true ->
             forall sb, isPanic (snd (exprAtom2script a sb)) = false) /\
  (forall m, everywhereMath okA okG okC okW m = true ->
             forall sb, isPanic (snd (math2script m sb)) = false) /\
  (forall p, everywherePredicate okA okG okC okW p = true ->
             forall sb, isPanic (snd (handleCompareAtom p sb)) = false) /\
  (forall f, everywhereFunction okA okG okC okW f = true ->
             forall sb, isPanic (snd (function2script f sb)) = false) /\
  (forall g, everywhereArg okA okG okC okW g = true ->
             forall sb, isPanic (snd (handleArg g sb)) = false) /\
  (forall c, everywhereCast okA okG okC okW c = true ->
             forall sb, isPanic (snd (castFunction2script c sb)) = false) /\
  (forall c, everywhereCase okA okG okC okW c = true ->
             forall sb, isPanic (snd (caseWhenFunction2script c sb)) = false).
Proof.
  apply translator_ind.
  - (* interval *)
    intros [a | l op r | t] ns H Hev sb; unfold liftP in H; cbn in Hev; andb_split;
      cbn -[String.append]; auto.
    destruct H as [H _]. specialize (H ltac:(assumption) sb).
    change (handleCompareAtom (AtomPredicateNode a) sb) with (exprAtom2script a sb) in H.
    destruct (exprAtom2script a sb) as [sb' [|e|p]]; cbn in *; auto.
  - intros m H Hev sb. cbn in Hev. andb_split. now apply H.
  - reflexivity.
  - (* unary *)
    intros op [v | a | [a | l o r | t] | e | f | | c | c] H Hev sb;
      unfold liftD, liftE, liftP in H; cbn in Hev; andb_split;
      match goal with Hk : okA _ = true |- _ => apply okA_fatal in Hk; try discriminate Hk end.
    + no_panic.
    + destruct H as (_ & Hl & Hr). no_panic.
  - reflexivity.
  - (* nested *)
    intros [[a | l op r | t] | t] H Hev sb; unfold liftE, liftP in H; cbn in Hev; andb_split;
      match goal with Hk : okA _ = true |- _ => apply okA_fatal in Hk; try discriminate Hk end.
    destruct H as [H _]. no_panic. apply H; assumption.
  - reflexivity.
  - (* function call *)
    intros [v | a | p | e | f | | c | c] H Hev sb; unfold liftD in H; cbn in Hev; andb_split;
      no_panic.
  - reflexivity.
  - intros l op r Hl Hr Hev sb. cbn in Hev. andb_split. no_panic.
  - intros a H Hev sb. cbn in Hev. now apply H.
  - reflexivity.
  - reflexivity.
  - (* function *)
    intros n args H Hev sb. rewrite function2script_eq. cbn in Hev.
    apply isPanic_andThen; [|reflexivity]. now apply rangeArgs_no_panic.
  - (* argument *)
    intros ty [v | a | p | [[a | l o r | t] | t] | f | | c | c] H Hev sb;
      unfold liftD, liftE, liftP in H; cbn in Hev; andb_split;
      match goal with Hk : okG _ = true |- _ => apply okG_fatal in Hk end;
      destruct ty; try discriminate; no_panic.
    + destruct H as [H _]. apply H; assumption.
    + destruct H as (_ & Hl & Hr). auto.
    + destruct H as (_ & Hl & Hr). auto.
  - (* cast *)
    intros c cs [[a | l o r | t] | t] H Hev sb; unfold liftE, liftP in H; cbn in Hev; andb_split;
      match goal with Hk : okC _ = true |- _ => apply okC_fatal in Hk end;
      unfold castNotFatal in *; andb_split; try discriminate.
    destruct H as [H _]. rewrite castFunction2script_eq.
    apply isPanic_andThen.
    + destruct c as [[ty [d0 d1] ch]|]; [destruct ty; reflexivity | destruct cs; [reflexivity | discriminate]].
    + intros sb0. no_panic. apply H; assumption.
  - (* case *)
    intros c bs els Hc Hb He Hev sb. rewrite caseWhenFunction2script_eq.
    cbn in Hev. andb_split.
    assert (Hh : isPanic (snd (caseHeader c)) = false).
    { destruct c as [[[a | l o r | t] | t]|]; try reflexivity.
      destruct (Hc _ eq_refl) as [Hq _]. apply Hq. assumption. }
    destruct (caseHeader c) as [cs [|e|p]]; cbn in Hh; try discriminate; [|reflexivity].
    apply isPanic_andThen; [now apply rangeBranches_no_panic|].
    intros sb0. cbn -[String.append]. apply isPanic_andThen; [|reflexivity].
    destruct els as [e|]; [|reflexivity]. apply (He e eq_refl). assumption.
Qed.

End NoPanic.

(** ** Column references in supported trees *)

Lemma verdict_andThen r k c1 c2 :
  snd r = verdict c1 ->
  (forall sb, snd (k sb) = verdict c2) ->
  snd (andThen r k) = verdict (orElse c1 c2).
Proof. destruct r as [sb o]; cbn; intros ->; destruct c1; cbn; auto. Qed.

Lemma verdict_andThen_Nil r k c :
  snd r = verdict c ->
  (forall sb, snd (k sb) = Nil) ->
  snd (andThen r k) = verdict c.
Proof. destruct r as [sb o]; cbn; intros ->; destruct c; cbn; auto. Qed.

Lemma castHeader_supported c cs src sb :
  castSupported (mkCastFunction c cs src) = true ->
  snd (castHeader c cs sb) = Nil.
Proof.
  destruct c as [[ty [d0 d1] ch]|]; [destruct ty | destruct cs]; cbn; auto; discriminate.
Qed.


Lemma rangeArgs_verdict args :
  Forall (fun g => supportedArg g = true ->
                   forall sb, snd (handleArg g sb) = verdict (columnArg g)) args ->
  (fix all (args : list FunctionArg) : bool :=
     match args with
     | [] => true
     | arg :: rest => supportedArg arg && all rest
     end) args = true ->
  forall i sb,
    snd (rangeArgs handleArg i args sb) =
    verdict ((fix first (args : list FunctionArg) : option nat :=
                match args with
                | [] => None
                | arg :: rest => orElse (columnArg arg) (first rest)
                end) args).
Proof.
  induction 1 as [|g args Hg _ IH]; intros Hall i sb; [reflexivity|].
  andb_split. cbn -[String.append Nat.ltb]. apply verdict_andThen; auto.
Qed.

Lemma rangeBranches_verdict cs bs :
  Forall (fun b =>
     (supportedArg (fst b) = true ->
      forall sb, snd (handleArg (fst b) sb) = verdict (columnArg (fst b))) /\
     (supportedArg (snd b) = true ->
      forall sb, snd (handleArg (snd b) sb) = verdict (columnArg (snd b)))) bs ->
  (fix all (branches : list (FunctionArg * FunctionArg)) : bool :=
     match branches with
     | [] => true
     | (when, then_) :: rest => supportedArg when && supportedArg then_ && all rest
     end) bs = true ->
  forall i sb,
    snd (rangeBranches handleArg cs i bs sb) =
    verdict ((fix first (branches : list (FunctionArg * FunctionArg)) : option nat :=
                match branches with
                | [] => None
                | (when, then_) :: rest =>
                    orElse (columnArg when) (orElse (columnArg then_) (first rest))
                end) bs).
Proof.
  induction 1 as [|[w t] bs [Hw Ht] _ IH]; intros Hall i sb; [reflexivity|].
  andb_split. cbn [fst snd] in Hw, Ht. cbn -[String.append Nat.ltb].
  apply verdict_andThen; auto. intros sb0.
  apply verdict_andThen; auto.
Qed.

Ltac by_verdict :=
  cbn -[String.append Nat.ltb Z.ltb];
  repeat first
    [ apply verdict_andThen_Nil; [|intros ?; reflexivity]
    | apply verdict_andThen; [|intros ?] ];
  cbn -[String.append Nat.ltb Z.ltb];
  auto.

(** On a tree of supported shapes the translator fails exactly when its walk
    meets a column reference, with the column error wrapped once per interval
    literal around that reference. *)
Lemma translator_verdict :
  (forall a, supportedAtom a = true ->
             forall sb, snd (exprAtom2script a sb) = verdict (columnAtom a)) /\
  (forall m, supportedMath m = true ->
             forall sb, snd (math2script m sb) = verdict (columnMath m)) /\
  (forall p, supportedPredicate p = true -> isAtomPredicate p = true ->
             forall sb, snd (handleCompareAtom p sb) = verdict (columnPredicate p)) /\
  (forall f, supportedFunction f = true ->
             forall sb, snd (function2script f sb) = verdict (columnFunction f)) /\
  (forall g, supportedArg g = true ->
             forall sb, snd (handleArg g sb) = verdict (columnArg g)) /\
  (forall c, supportedCast c = true ->
             forall sb, snd (castFunction2script c sb) = verdict (columnCast c)) /\
  (forall c, supportedCase c = true ->
             forall sb, snd (caseWhenFunction2script c sb) = verdict (columnCase c)).
Proof.
  apply translator_ind.
  - (* interval *)
    intros [a | l op r | t] ns H Hev sb; unfold liftP in H; cbn in Hev; andb_split;
      try discriminate.
    destruct H as [H _]. specialize (H ltac:(assumption) eq_refl sb).
    change (handleCompareAtom (AtomPredicateNode a) sb) with (exprAtom2script a sb) in H.
    cbn -[String.append].
    destruct (exprAtom2script a sb) as [sb' o]; cbn in H; subst o.
    destruct (columnAtom a); reflexivity.
  - intros m H Hev sb. cbn in Hev. andb_split. now apply H.
  - reflexivity.
  - (* unary *)
    intros op [v | a | [a | l o r | t] | e | f | | c | c] H Hev sb;
      unfold liftD, liftE, liftP in H; cbn in Hev; andb_split; try discriminate.
    + by_verdict.
    + destruct H as (_ & Hl & Hr). by_verdict.
  - reflexivity.
  - (* nested *)
    intros [[a | l op r | t] | t] H Hev sb; unfold liftE, liftP in H; cbn in Hev; andb_split;
      try discriminate.
    destruct H as [H _]. by_verdict. apply H; auto.
  - reflexivity.
  - (* function call *)
    intros [v | a | p | e | f | | c | c] H Hev sb; unfold liftD in H; cbn in Hev; andb_split;
      try discriminate; by_verdict.
  - discriminate.
  - intros l op r Hl Hr Hev sb. cbn in Hev. andb_split. by_verdict.
  - intros a H Hev _ sb. cbn in Hev. now apply H.
  - discriminate.
  - discriminate.
  - (* function *)
    intros n args H Hev sb. rewrite function2script_eq. cbn in Hev.
    apply verdict_andThen_Nil; [|reflexivity]. now apply rangeArgs_verdict.
  - (* argument *)
    intros ty [v | a | p | [[a | l o r | t] | t] | f | | c | c] H Hev sb;
      unfold liftD, liftE, liftP in H; cbn in Hev; andb_split;
      destruct ty; try discriminate; by_verdict.
    + destruct H as [H _]. apply H; auto.
    + destruct H as (_ & Hl & Hr). cbn in *. andb_split. auto.
    + destruct H as (_ & Hl & Hr). cbn in *. andb_split. auto.
  - (* cast *)
    intros c cs src H Hev sb. cbn in Hev. andb_split.
    rewrite castFunction2script_eq.
    pose proof (castHeader_supported c cs src sb ltac:(assumption)) as Hh.
    destruct (castHeader c cs sb) as [sb0 o]; cbn in Hh; subst o. cbn -[String.append].
    assert (Hsrc : wrapsAtomPredicate src = true).
    { destruct c as [cast|]; [|destruct cs]; cbn in *; andb_split; auto; discriminate. }
    destruct src as [[a | l o r | t] | t]; try discriminate.
    unfold liftE, liftP in H. destruct H as [H _].
    by_verdict. apply H; auto.
  - (* case *)
    intros c bs els Hc Hb He Hev sb. rewrite caseWhenFunction2script_eq.
    cbn in Hev. andb_split.
    assert (Hh : snd (caseHeader c) =
                 verdict match c with
                         | Some (PredicateExpressionNode (AtomPredicateNode A)) => columnAtom A
                         | _ => None
                         end).
    { destruct c as [[[a | l o r | t] | t]|]; try discriminate; try reflexivity.
      destruct (Hc _ eq_refl) as [Hq _]. apply Hq; auto. }
    cbn [columnCase].
    destruct (caseHeader c) as [cs o]. cbn in Hh. subst o.
    destruct (match c with
              | Some (PredicateExpressionNode (AtomPredicateNode A)) => columnAtom A
              | _ => None
              end) as [n|]; [reflexivity|].
    cbn [verdict orElse].
    apply verdict_andThen; [now apply rangeBranches_verdict|].
    intros sb0. cbn -[String.append]. apply verdict_andThen_Nil; [|reflexivity].
    destruct els as [e|]; [|reflexivity]. apply (He e eq_refl). assumption.
Qed.




Lemma orElse_found b1 b2 : orElse (found b1) (found b2) = found (b1 && b2).
Proof. destruct b1, b2; reflexivity. Qed.

Lemma first_column_args args :
  Forall (fun g => supportedArg g = true -> clearArg g = true ->
                   columnArg g = found (noColumnArg g)) args ->
  (fix all (args : list FunctionArg) : bool :=
     match args with [] => true | arg :: rest => supportedArg arg && all rest end) args = true ->
  (fix all (args : list FunctionArg) : bool :=
     match args with [] => true | arg :: rest => clearArg arg && all rest end) args = true ->
  (fix first (args : list FunctionArg) : option nat :=
     match args with [] => None | arg :: rest => orElse (columnArg arg) (first rest) end) args =
  found ((fix all (args : list FunctionArg) : bool :=
     match args with [] => true | arg :: rest => noColumnArg arg && all rest end) args).
Proof.
  induction 1 as [|g args Hg _ IH]; intros Hs Hc; [reflexivity|].
  andb_split. rewrite Hg, IH by assumption. apply orElse_found.
Qed.

Lemma first_column_branches bs :
  Forall (fun b =>
     (supportedArg (fst b) = true -> clearArg (fst b) = true ->
      columnArg (fst b) = found (noColumnArg (fst b))) /\
     (supportedArg (snd b) = true -> clearArg (snd b) = true ->
      columnArg (snd b) = found (noColumnArg (snd b)))) bs ->
  (fix all (branches : list (FunctionArg * FunctionArg)) : bool :=
     match branches with
     | [] => true
     | (when, then_) :: rest => supportedArg when && supportedArg then_ && all rest
     end) bs = true ->
  (fix all (branches : list (FunctionArg * FunctionArg)) : bool :=
     match branches with
     | [] => true
     | (when, then_) :: rest => clearArg when && clearArg then_ && all rest
     end) bs = true ->
  (fix first (branches : list (FunctionArg * FunctionArg)) : option nat :=
     match branches with
     | [] => None
     | (when, then_) :: rest =>
         orElse (columnArg when) (orElse (columnArg then_) (first rest))
     end) bs =
  found ((fix all (branches : list (FunctionArg * FunctionArg)) : bool :=
     match branches with
     | [] => true
     | (when, then_) :: rest => noColumnArg when && noColumnArg then_ && all rest
     end) bs).
Proof.
  induction 1 as [|[w t] bs [Hw Ht] _ IH]; intros Hs Hc; [reflexivity|].
  andb_split. cbn [fst snd] in Hw, Ht. rewrite Hw, Ht, IH by assumption.
  rewrite !orElse_found. now rewrite andb_assoc.
Qed.

(** In a supported tree whose interval literals hold no column reference,
    the walk meets a column reference exactly when the tree contains one, and
    then under no interval literal. *)
Lemma first_column_syntactic :
  (forall a, supportedAtom a = true -> clearAtom a = true ->
             columnAtom a = found (noColumnAtom a)) /\
  (forall m, supportedMath m = true -> clearMath m = true ->
             columnMath m = found (noColumnMath m)) /\
  (forall p, supportedPredicate p = true -> clearPredicate p = true ->
             isAtomPredicate p = true ->
             columnPredicate p = found (noColumnPredicate p)) /\
  (forall f, supportedFunction f = true -> clearFunction f = true ->
             columnFunction f = found (noColumnFunction f)) /\
  (forall g, supportedArg g = true -> clearArg g = true ->
             columnArg g = found (noColumnArg g)) /\
  (forall c, supportedCast c = true -> clearCast c = true ->
             columnCast c = found (noColumnCast c)) /\
  (forall c, supportedCase c = true -> clearCase c = true ->
             columnCase c = found (noColumnCase c)).
Proof.
  apply translator_ind.
  - (* interval *)
    intros [a | l op r | t] ns H Hs Hc; unfold liftP in H; cbn in Hs, Hc; andb_split;
      try discriminate.
    destruct H as [H _].
    assert (Hn : noColumnAtom a = true) by assumption.
    pose proof (H ltac:(assumption) ltac:(assumption) eq_refl) as Ha.
    change (columnAtom a = found (noColumnAtom a)) in Ha.
    change (columnAtom (AtomInterval (AtomPredicateNode a) ns))
      with (option_map S (columnAtom a)).
    change (noColumnAtom (AtomInterval (AtomPredicateNode a) ns)) with (noColumnAtom a).
    rewrite Ha, Hn. reflexivity.
  - intros m H Hs Hc. cbn in Hs, Hc. andb_split. cbn. now apply H.
  - reflexivity.
  - (* unary *)
    intros op [v | a | [a | l o r | t] | e | f | | c | c] H Hs Hc;
      unfold liftD, liftE, liftP in H; cbn in Hs, Hc; andb_split; try discriminate.
    + cbn. now apply H.
    + destruct H as (_ & Hl & Hr). cbn. rewrite Hl, Hr by assumption. apply orElse_found.
  - reflexivity.
  - (* nested *)
    intros [[a | l op r | t] | t] H Hs Hc; unfold liftE, liftP in H; cbn in Hs, Hc; andb_split;
      try discriminate.
    destruct H as [H _]. cbn in *. now apply H.
  - reflexivity.
  - (* function call *)
    intros [v | a | p | e | f | | c | c] H Hs Hc; unfold liftD in H; cbn in Hs, Hc; andb_split;
      try discriminate; cbn; now apply H.
  - discriminate.
  - intros l op r Hl Hr Hs Hc. cbn in Hs, Hc. andb_split. cbn.
    rewrite Hl, Hr by assumption. apply orElse_found.
  - intros a H Hs Hc _. cbn in *. now apply H.
  - discriminate.
  - discriminate.
  - (* function *)
    intros n args H Hs Hc. cbn in Hs, Hc. cbn. now apply first_column_args.
  - (* argument *)
    intros ty [v | a | p | [[a | l o r | t] | t] | f | | c | c] H Hs Hc;
      unfold liftD, liftE, liftP in H; cbn in Hs, Hc; andb_split;
      destruct ty; try discriminate; try reflexivity; cbn.
    + destruct H as [H _]. cbn in H. now apply H.
    + destruct H as (_ & Hl & Hr). cbn in *. andb_split.
      rewrite Hl, Hr by assumption. apply orElse_found.
    + now apply H.
    + now apply H.
    + now apply H.
  - (* cast *)
    intros c cs src H Hs Hc. cbn in Hs, Hc. andb_split.
    assert (Hsrc : wrapsAtomPredicate src = true).
    { destruct c as [cast|]; [|destruct cs]; cbn in *; andb_split; auto; discriminate. }
    destruct src as [[a | l o r | t] | t]; try discriminate.
    unfold liftE, liftP in H. destruct H as [H _]. cbn in *. now apply H.
  - (* case *)
    intros c bs els Hc Hb He Hs Hcl. cbn in Hs, Hcl. andb_split.
    cbn [columnCase].
    assert (Hh : match c with
                 | Some (PredicateExpressionNode (AtomPredicateNode A)) => columnAtom A
                 | _ => None
                 end = found match c with
                             | Some e => everywhereExpression notColumnAtom notColumnArg anyCast anyCase e
                             | None => true
                             end).
    { destruct c as [[[a | l o r | t] | t]|]; try discriminate; try reflexivity.
      destruct (Hc _ eq_refl) as [Hq _]. cbn in *. now apply Hq. }
    rewrite Hh. rewrite (first_column_branches bs Hb) by assumption.
    assert (Hels : match els with Some e => columnArg e | None => None end =
                   found match els with Some e => noColumnArg e | None => true end).
    { destruct els as [e|]; [|reflexivity]. now apply (He e eq_refl). }
    rewrite Hels, !orElse_found. cbn. now rewrite !andb_assoc.
Qed.

Lemma translateSource_verdict source :
  supported source = true -> isScriptSource source = true ->
  snd (translateSource source) = verdict (columnOf source).
Proof.
  destruct translator_verdict as (_ & M & _ & F & _ & C & W).
  destruct source as [v | [] | p | e | f | | c | c]; try discriminate; intros Hs _; cbn.
  - apply M. unfold supported in Hs. cbn in Hs. andb_split. assumption.
  - now apply F.
  - now apply C.
  - now apply W.
Qed.

Lemma columnOf_syntactic source :
  supported source = true -> intervalsClear source = true -> isScriptSource source = true ->
  columnOf source = found (negb (containsColumn source)).
Proof.
  destruct first_column_syntactic as (_ & M & _ & F & _ & C & W).
  unfold containsColumn. rewrite negb_involutive.
  destruct source as [v | [] | p | e | f | | c | c]; try discriminate; intros Hs Hc _; cbn.
  - unfold supported, intervalsClear in Hs, Hc. cbn in Hs, Hc. andb_split. now apply M.
  - now apply F.
  - now apply C.
  - now apply W.
Qed.

(** C2 (amended).  For a node made only of the shapes the translator
    renders, none of whose interval literals holds a column reference:
    translation fails with the distinguished column-reference error when the
    tree contains a column reference (a column atom or a column-typed
    argument) anywhere, and returns no error when it contains none; and
    [IsEvalWithColumnErr] is true for exactly that error. *)
Theorem column_reference_error (source : Dyn) :
  supported source = true ->
  intervalsClear source = true ->
  isScriptSource source = true ->
  (containsColumn source = true ->
   snd (translateSource source) = Err ErrCannotEvalWithColumnName) /\
  (containsColumn source = false -> snd (translateSource source) = Nil) /\
  (forall err,
     IsEvalWithColumnErr err = true <-> err = Some ErrCannotEvalWithColumnName).
Proof.
  intros Hs Hc Hk.
  rewrite (translateSource_verdict source Hs Hk), (columnOf_syntactic source Hs Hc Hk).
  repeat match goal with |- _ /\ _ => split end; [| |split].
  - now intros ->.
  - now intros ->.
  - destruct err as [[]|]; cbn; congruence.
  - now intros ->.
Qed.

(** Where the translator stops.  It panics with "unreachable" on a unary
    operand that is neither an expression atom nor a binary comparison and on
    a CAST with neither target type nor charset; it returns an error for an
    unlisted atom, an interval over anything but a single-atom predicate, a
    function-call atom whose callee is not a function, CAST or CASE, a cast
    to BINARY or JSON, a comparison operand or CASE subject that is not a
    single-atom predicate, an argument expression of another predicate kind,
    and a node [compute] does not accept; and it never panics on a tree free
    of these two shapes and of the shapes behind its unchecked type
    assertions. *)
Theorem translator_fatal_conditions :
  (forall op d sb,
     unaryOperandOk (AtomUnary op d) = false ->
     exists sb', exprAtom2script (AtomUnary op d) sb = (sb', Panic PanicUnreachable)) /\
  (forall src sb,
     castFunction2script (mkCastFunction None None src) sb = (sb, Panic PanicUnreachable)) /\
  (forall t sb, exists msg, exprAtom2script (AtomOther t) sb = (sb, Err (ErrNew msg))) /\
  (forall v ns sb,
     isAtomPredicate v = false ->
     exists msg, exprAtom2script (AtomInterval v ns) sb = (sb, Err (ErrNew msg))) /\
  (forall F sb,
     isCallee F = false ->
     exists msg, exprAtom2script (AtomFunctionCall F) sb = (sb, Err (ErrNew msg))) /\
  (forall ty dims charset GetCharset src sb,
     ty = CastToBinary \/ ty = CastToJson ->
     exists msg,
       castFunction2script
         (mkCastFunction (Some (mkConvertDataType ty dims charset)) GetCharset src) sb =
       (sb, Err (ErrNew msg))) /\
  (forall p sb,
     isAtomPredicate p = false ->
     exists msg, handleCompareAtom p sb = (sb, Err (ErrNew msg))) /\
  (forall t sb,
     exists msg,
       handleArg (mkFunctionArg FunctionArgExpression
                    (DynExpression (PredicateExpressionNode (PredicateOther t)))) sb =
       (sb, Err (ErrNew msg))) /\
  (forall e bs els sb,
     wrapsAtomPredicate e = false ->
     exists msg,
       caseWhenFunction2script (mkCaseWhenElse (Some e) bs els) sb = (sb, Err (ErrNew msg))) /\
  (forall source,
     isScriptSource source = false ->
     exists msg, translateSource source = (""%string, Err (ErrNew msg))) /\
  (forall source,
     noFatalShape source = true -> isPanic (snd (translateSource source)) = false) /\
  (forall a sb,
     noFatalShape (DynAtom a) = true -> isPanic (snd (exprAtom2script a sb)) = false).
Proof.
  destruct (translator_no_panic atomNotFatal argValueOk castNotFatal (fun _ => true))
    as (A & M & _ & F & _ & C & W); auto.
  repeat match goal with |- _ /\ _ => split end.
  - intros op [v | a | [a | l o r | t] | e | f | | c | c] sb H; try discriminate H;
      eexists; reflexivity.
  - reflexivity.
  - intros t sb. eexists; reflexivity.
  - intros [a | l o r | t] ns sb H; try discriminate H; eexists; reflexivity.
  - intros [v | a | p | e | f | | c | c] sb H; try discriminate H; eexists; reflexivity.
  - intros ty dims charset GetCharset src sb [-> | ->]; eexists; reflexivity.
  - intros [a | l o r | t] sb H; try discriminate H; eexists; reflexivity.
  - intros t sb. eexists; reflexivity.
  - intros [[a | l o r | t] | t] bs els sb H; try discriminate H; eexists; reflexivity.
  - intros [v | [] | p | e | f | | c | c] H; try discriminate H; eexists; reflexivity.
  - intros [v | [] | p | e | f | | c | c] H; try reflexivity; cbn.
    + apply M. unfold noFatalShape in H. cbn in H. andb_split. assumption.
    + now apply F.
    + now apply C.
    + now apply W.
  - intros a sb H. now apply A.
Qed.

End TranslatorFacts.

(** ** The theorems at concrete inputs *)

(** C2, as stated, fails: [SUM(...) + t.c] contains a column reference, yet
    translation fails with the error of the aggregate call, for which
    [IsEvalWithColumnErr] is false. *)
Lemma column_error_not_for_every_tree :
  containsColumn (DynAtom (AtomMath Sample.aggrPlusColumn)) = true /\
  translateSource (api := Sample.api) (DynAtom (AtomMath Sample.aggrPlusColumn)) =
    (""%string, Err (ErrNew "aggr function should not appear here")) /\
  IsEvalWithColumnErr (Some (ErrNew "aggr function should not appear here")) = false.
Proof. repeat split. Qed.

(** [ABS(t.c)] fails with the column error, [ABS(1)] translates. *)
Lemma column_reference_error_witness :
  snd (translateSource (api := Sample.api) (DynFunction Sample.absOfColumn)) =
    Err ErrCannotEvalWithColumnName /\
  snd (translateSource (api := Sample.api) (DynFunction Sample.absOfOne)) = Nil.
Proof.
  split.
  - exact (proj1 (@column_reference_error Sample.api (DynFunction Sample.absOfColumn)
                    eq_refl eq_refl eq_refl) eq_refl).
  - exact (proj1 (proj2 (@column_reference_error Sample.api (DynFunction Sample.absOfOne)
                    eq_refl eq_refl eq_refl)) eq_refl).
Defined.

(** An interval literal over a column reference: the error is the column
    error wrapped by [errors.WithStack], which [IsEvalWithColumnErr] does not
    recognise. *)
Lemma interval_over_column_wraps_error :
  exprAtom2script (api := Sample.api)
    (AtomInterval (AtomPredicateNode Sample.column) 1000000000) "" =
    (""%string, Err (ErrWithStack ErrCannotEvalWithColumnName)) /\
  IsEvalWithColumnErr (Some (ErrWithStack ErrCannotEvalWithColumnName)) = false.
Proof. split; reflexivity. Qed.

(** C6.  A parenthesized comparison [(1 = 2)] as an atom, and a CAST over
    the comparison, have neither of the two "unreachable" shapes, and the
    translator panics on them, at its unchecked type assertions, where the
    claim has a recoverable error; the same comparison under an interval
    literal or as the subject of a CASE, where the type is checked, gives an
    error.  A cast type and an argument type outside the switches give no
    error at all. *)
Lemma unchecked_assertions_panic :
  (noUnreachableShape (DynAtom Sample.nestedComparison) = true /\
   exprAtom2script (api := Sample.api) Sample.nestedComparison "" =
     (""%string, Panic PanicTypeAssertion)) /\
  (noUnreachableShape (DynCastFunction Sample.castOverComparison) = true /\
   castFunction2script (api := Sample.api) Sample.castOverComparison "" =
     ("$CAST_UNSIGNED("%string, Panic PanicTypeAssertion)) /\
  (exists msg,
     exprAtom2script (api := Sample.api) (AtomInterval Cases.oneIsTwo 1000000000) "" =
       (""%string, Err (ErrNew msg))) /\
  (exists msg,
     caseWhenFunction2script (api := Sample.api)
       (mkCaseWhenElse (Some (PredicateExpressionNode Cases.oneIsTwo))
          [(Sample.constArg (GoInt 1), Sample.constArg (GoInt 2))] None) "" =
       (""%string, Err (ErrNew msg))) /\
  castFunction2script (api := Sample.api) Sample.castOther "" = ("x)"%string, Nil) /\
  function2script (api := Sample.api) Cases.absOfUnlisted "" = ("$ABS()"%string, Nil).
Proof.
  repeat match goal with |- _ /\ _ => split end; try reflexivity;
    eexists; reflexivity.
Qed.

(** A unary operator over a bare constant value panics; the CASE of the
    example does not. *)
Lemma translator_fatal_conditions_witness :
  (exists sb', exprAtom2script (api := Sample.api)
                 (AtomUnary "-" (DynValue (GoInt 1))) "" = (sb', Panic PanicUnreachable)) /\
  isPanic (snd (translateSource (api := Sample.api)
                  (DynCaseWhenElseFunction Sample.caseABC))) = false.
Proof.
  pose proof (@translator_fatal_conditions Sample.api) as H.
  split.
  - exact (proj1 H "-"%string (DynValue (GoInt 1)) ""%string eq_refl).
  - exact (proj1 (proj2 (proj2 (proj2 (proj2 (proj2 (proj2 (proj2 (proj2 (proj2 (proj2 H))))))))))
             (DynCaseWhenElseFunction Sample.caseABC) eq_refl).
Defined.

(** Five seconds over the atom [x]. *)
Lemma interval_renders_nanoseconds_witness :
  exprAtom2script (api := Sample.api) Sample.intervalFiveSeconds "" =
  ("x * 5000000000"%string, Nil).
Proof.
  exact (proj2 (@interval_renders_nanoseconds Sample.api Sample.atomX "x"%string eq_refl)).
Defined.

(** [x <> 1] and [x = 1] as arguments, [-(x >= 1)] as a unary atom. *)
Lemma comparison_rendering_witness :
  handleArg (api := Sample.api) (Sample.compareArg Cne) "" = ("x != 1"%string, Nil) /\
  handleArg (api := Sample.api) (Sample.compareArg Ceq) "" = ("x == 1"%string, Nil) /\
  exprAtom2script (api := Sample.api) (Sample.unaryCompare (ComparisonOther 4)) "" =
    ("$UNARY('-', x >= 1)"%string, Nil).
Proof.
  pose proof (@comparison_rendering Sample.api Sample.atomX (AtomConstant (GoInt 1))
                "x"%string "1"%string eq_refl eq_refl) as (Harg & Hunary & _).
  split; [exact (Harg Cne ""%string)|].
  split; [exact (Harg Ceq ""%string)|].
  exact (Hunary (ComparisonOther 4) "-"%string ""%string).
Defined.

(** C10, as stated, fails: a cast to a type outside the switch over a column
    reference returns the column error, not a nil error. *)
Lemma cast_unlisted_type_over_column_fails :
  castFunction2script (api := Sample.api)
    (mkCastFunction (Some (mkConvertDataType (CastTypeOther 0) (0, 0)%Z None)) None
       (Sample.atomOf Sample.column)) "" =
  (""%string, Err ErrCannotEvalWithColumnName).
Proof. reflexivity. Qed.

(** A cast type outside the switch over the atom [x]. *)
Lemma cast_unlisted_type_writes_no_name_witness :
  castFunction2script (api := Sample.api) Sample.castOther "" = ("x)"%string, Nil).
Proof.
  exact (proj2 (@cast_unlisted_type_writes_no_name Sample.api 0%Z (0, 0)%Z None None
                  Sample.atomX "x"%string ""%string eq_refl)).
Defined.

(** CHAR(10) with charset utf8, DECIMAL(8) and JSON over the atom [x]. *)
Lemma cast_rendering_table_witness :
  castFunction2script (api := Sample.api) Sample.castChar10Utf8 "" =
    ("$CAST_CHAR(10, 'utf8', x)"%string, Nil) /\
  castFunction2script (api := Sample.api)
    (mkCastFunction (Some (mkConvertDataType CastToDecimal (8, 0)%Z None)) None
       (Sample.atomOf Sample.atomX)) "" = ("$CAST_DECIMAL(8, 0, x)"%string, Nil) /\
  (exists msg,
     castFunction2script (api := Sample.api)
       (mkCastFunction (Some (mkConvertDataType CastToJson (0, 0)%Z None)) None
          (Sample.atomOf Sample.atomX)) "" = (""%string, Err (ErrNew msg))).
Proof.
  pose proof (@cast_rendering_table Sample.api Sample.atomX "x"%string eq_refl)
    as (Htable & _ & _ & _ & _ & _ & Hchar & _ & Hfail).
  split; [exact (Hchar 0%Z None ""%string eq_refl)|].
  split.
  - exact (Htable (mkConvertDataType CastToDecimal (8, 0)%Z None)
             "DECIMAL"%string ["8"; "0"]%string None ""%string eq_refl).
  - exact (Hfail CastToJson (0, 0)%Z None None (Sample.atomOf Sample.atomX) ""%string
             (or_intror eq_refl)).
Defined.

(** The CASE of the specification. *)
Lemma case_when_renders_nested_if_witness :
  caseWhenFunction2script (api := Sample.api) Sample.caseABC "" =
  ("$IF(1 == (2 + 1), 'A', $IF(2 == (2 + 1), 'B', $IF(3 == (2 + 1), 'C', '*')))"%string,
   Nil).
Proof.
  refine (proj2 (@case_when_renders_nested_if Sample.api
                   (Some (Sample.atomOf Sample.twoPlusOne))
                   [(Sample.constArg (GoInt 1), Sample.constArg (GoString "A"));
                    (Sample.constArg (GoInt 2), Sample.constArg (GoString "B"));
                    (Sample.constArg (GoInt 3), Sample.constArg (GoString "C"))]
                   (Some (Sample.constArg (GoString "*")))
                   (Some "2 + 1"%string) "'*'"%string _ _ _) eq_refl eq_refl eq_refl).
  - exists Sample.twoPlusOne, "2 + 1"%string.
    split; [reflexivity|]. split; [reflexivity|]. split; [discriminate | reflexivity].
  - repeat constructor.
  - reflexivity.
Defined.

(** ** The memoized computation and the cache *)

Section CacheFacts.
Context `{api : AstApi} `{engine : ScriptEngine}.

Lemma compute_done sc :
  once_done sc = true ->
  compute sc = (sc, Returned (sc_script sc, sc_err sc), []).
Proof. intros H. unfold compute. now rewrite H. Qed.

Lemma compute_fresh node :
  exists sc r,
    compute (newScriptComputer node) = (sc, r, [EvTranslate node]) /\
    once_done sc = true /\
    forall e, snd (translateSource node) = Err e ->
      sc_script sc = ""%string /\ sc_err sc = Some e /\ r = Returned (""%string, Some e).
Proof.
  unfold compute, computeOnce. cbn [once_done sc_source newScriptComputer].
  destruct (translateSource node) as [sb [|e0|p]]; cbn;
    do 2 eexists; (split; [reflexivity|]); (split; [reflexivity|]);
    intros e He; inversion He; subst; auto.
Qed.

Lemma lruFind_In k c a : lruFind k c = Some a -> In (k, a) c.
Proof.
  induction c as [|[k' a'] c IH]; cbn; [discriminate|].
  destruct (decide (k = k')) as [->|]; intros H.
  - inversion H; subst. now left.
  - right. auto.
Qed.

Lemma lruFind_None k c a : lruFind k c = None -> ~ In (k, a) c.
Proof.
  induction c as [|[k' a'] c IH]; cbn; [auto|].
  destruct (decide (k = k')) as [->|Hne]; [discriminate|].
  intros H [E|Hin]; [inversion E; subst; now apply Hne | now apply IH].
Qed.

Lemma lruRemove_In k c k' a : In (k', a) (lruRemove k c) -> In (k', a) c /\ k' <> k.
Proof.
  induction c as [|[k0 a0] c IH]; cbn; [tauto|].
  destruct (decide (k = k0)) as [->|Hne].
  - intros H. destruct (IH H). auto.
  - intros [E|H].
    + inversion E; subst. split; [now left | congruence].
    + destruct (IH H). auto.
Qed.

Lemma lruRemove_NoDup k (c : list (key * nat)) : NoDup (List.map snd c) -> NoDup (List.map snd (lruRemove k c)).
Proof.
  induction c as [|[k0 a0] c IH]; cbn; [auto|].
  intros H. inversion H as [|? ? Hn Hd]; subst.
  destruct (decide (k = k0)); [auto|]. cbn. constructor; [|auto].
  intros Hin. apply Hn. apply in_map_iff in Hin. destruct Hin as ([k1 a1] & E & Hin).
  cbn in E. subst. apply lruRemove_In in Hin. destruct Hin as [Hin _].
  apply in_map_iff. now exists (k1, a0).
Qed.

Lemma NoDup_snd_In (c : list (key * nat)) k1 k2 a :
  NoDup (List.map snd c) -> In (k1, a) c -> In (k2, a) c -> k1 = k2.
Proof.
  induction c as [|[k0 a0] c IH]; cbn; [tauto|].
  intros H. inversion H as [|? ? Hn Hd]; subst.
  intros [E1|H1] [E2|H2].
  - congruence.
  - inversion E1; subst. exfalso. apply Hn. apply in_map_iff. now exists (k2, a).
  - inversion E2; subst. exfalso. apply Hn. apply in_map_iff. now exists (k1, a).
  - auto.
Qed.

Lemma firstn_subset {A} n (l : list A) x : In x (firstn n l) -> In x l.
Proof.
  revert l; induction n as [|n IH]; intros [|y l]; cbn; try tauto.
  intros [->|H]; auto.
Qed.

Lemma firstn_keeps_NoDup {A} n (l : list A) : NoDup l -> NoDup (firstn n l).
Proof.
  revert l; induction n as [|n IH]; intros [|y l] H; cbn; try constructor.
  - inversion H; subst. intros Hin. apply firstn_subset in Hin. contradiction.
  - inversion H; subst. auto.
Qed.

Lemma firstn_of_map {A B} (f : A -> B) n (l : list A) :
  firstn n (List.map f l) = List.map f (firstn n l).
Proof. revert l; induction n as [|n IH]; intros [|y l]; cbn; auto. now rewrite IH. Qed.

(** [build] keeps the state well formed, adds no engine event, and keeps the
    errors held under every key whose node fails. *)
Lemma build_invariant node addr w :
  wellFormed w ->
  let k := (typeNameDyn node, addr) in
  exists w' r,
    build node addr w = (w', r) /\
    wellFormed w' /\
    (exists evs, trace w' = (trace w ++ evs)%list /\
                 Forall (fun ev => isEngineEvent ev = false) evs /\
                 (forall a, In (k, a) (cache w) -> evs = [])) /\
    (forall k0 e0, replays k0 e0 w ->
       (k0 = k -> snd (translateSource node) = Err e0) ->
       replays k0 e0 w') /\
    (forall e0, replays k e0 w -> snd (translateSource node) = Err e0 ->
       exists s, r = Returned (s, Some e0)).
Proof.
  intros [Hnd Hwf] k. unfold build. fold k. unfold lruGet, lruPeekOrAdd.
  destruct (lruFind k (cache w)) as [a|] eqn:Ef.
  - (* hit *)
    pose proof (lruFind_In _ _ _ Ef) as Hin.
    destruct (Hwf _ _ Hin) as (Hlt & sc & Hsc & Hdone).
    unfold computeAt. cbn [heap next cache trace]. rewrite Hsc, (compute_done sc Hdone).
    rewrite (insert_id (heap w) a sc Hsc).
    do 2 eexists. split; [reflexivity|]. cbn [heap next cache trace].
    split; [|split; [|split]].
    + split; cbn [cache next heap].
      * cbn. constructor; [|now apply lruRemove_NoDup].
        intros Hin'. apply in_map_iff in Hin'. destruct Hin' as ([k1 a1] & E & Hin').
        cbn in E. subst a1. apply lruRemove_In in Hin'. destruct Hin' as [Hin' Hne].
        apply Hne. exact (NoDup_snd_In _ _ _ _ Hnd Hin' Hin).
      * intros k1 a1 [E|H1]; [inversion E; subst; eauto|].
        apply lruRemove_In in H1. destruct H1 as [H1 _]. exact (Hwf _ _ H1).
    + exists []. rewrite app_nil_r. auto.
    + intros k0 e0 Hr _ a0 H0. cbn [cache heap] in *. apply Hr.
      destruct H0 as [E|H0]; [inversion E; subst; assumption|].
      now apply lruRemove_In in H0.
    + intros e0 Hr _. destruct (Hr a Hin) as (sc' & Hsc' & _ & Herr).
      rewrite Hsc in Hsc'. inversion Hsc'; subst sc'. rewrite Herr. eauto.
  - (* miss *)
    unfold computeAt. cbn [heap next cache trace]. rewrite lookup_insert_eq.
    destruct (compute_fresh node) as (sc & r & -> & Hdone & Hres).
    do 2 eexists. split; [reflexivity|]. cbn [heap next cache trace].
    assert (Hfresh : forall k1 a1, In (k1, a1) (cache w) -> a1 <> next w).
    { intros k1 a1 H1. destruct (Hwf _ _ H1). lia. }
    split; [|split; [|split]].
    + split; cbn [cache next heap].
      * rewrite <- firstn_of_map. apply firstn_keeps_NoDup. cbn. constructor; [|assumption].
        intros Hin. apply in_map_iff in Hin. destruct Hin as ([k1 a1] & E & Hin).
        cbn in E. subst a1. now apply (Hfresh _ _ Hin).
      * intros k1 a1 H1. apply firstn_subset in H1. destruct H1 as [E|H1].
        -- inversion E; subst. split; [lia|]. exists sc.
           rewrite insert_insert_eq, lookup_insert_eq. auto.
        -- destruct (Hwf _ _ H1) as (Hlt & sc1 & Hsc1 & Hd1). split; [lia|].
           exists sc1. rewrite insert_insert_eq, lookup_insert_ne by lia. auto.
    + exists [EvTranslate node]. split; [reflexivity|]. split; [repeat constructor|].
      intros a Hin. exfalso. exact (lruFind_None _ _ a Ef Hin).
    + intros k0 e0 Hr Hk a0 H0. cbn [cache heap] in *. apply firstn_subset in H0.
      destruct H0 as [E|H0].
      * inversion E; subst. destruct (Hres e0 (Hk eq_refl)) as (_ & Herr & _).
        exists sc. rewrite insert_insert_eq, lookup_insert_eq. auto.
      * destruct (Hr _ H0) as (sc1 & Hsc1 & Hd1 & He1).
        exists sc1. rewrite insert_insert_eq, lookup_insert_ne; [auto|].
        intros E. symmetry in E. now apply (Hfresh _ _ H0).
    + intros e0 _ He. destruct (Hres e0 He) as (_ & _ & ->). eauto.
Qed.

Lemma evalNode_invariant node addr args w :
  wellFormed w ->
  let k := (typeNameDyn node, addr) in
  wellFormed (fst (evalNode node addr args w)) /\
  (forall k0 e0, replays k0 e0 w ->
     (k0 = k -> snd (translateSource node) = Err e0) ->
     replays k0 e0 (fst (evalNode node addr args w))).
Proof.
  intros Hwf k. unfold evalNode.
  destruct (build_invariant node addr w Hwf) as (w' & r & -> & Hwf' & _ & Hrep & _).
  destruct r as [[s [err|]]|p]; cbn [fst]; auto.
Qed.

Lemma evalNode_failing node addr args w e :
  wellFormed w ->
  replays (typeNameDyn node, addr) e w ->
  snd (translateSource node) = Err e ->
  exists w' evs,
    evalNode node addr args w = (w', Returned (GoNil, Some e)) /\
    trace w' = (trace w ++ evs)%list /\
    Forall (fun ev => isEngineEvent ev = false) evs /\
    ((exists a, In ((typeNameDyn node, addr), a) (cache w)) -> evs = []).
Proof.
  intros Hwf Hrep He. unfold evalNode.
  destruct (build_invariant node addr w Hwf)
    as (w' & r & -> & _ & (evs & Ht & Hev & Hhit) & _ & Hres).
  destruct (Hres e Hrep He) as (s & ->).
  exists w', evs. repeat (split; [assumption || reflexivity|]).
  intros (a & Hin). eauto.
Qed.

Lemma runCalls_invariant node addr e cs :
  snd (translateSource node) = Err e ->
  sameIdentity node addr cs ->
  forall w,
    wellFormed w -> replays (typeNameDyn node, addr) e w ->
    wellFormed (runCalls cs w) /\ replays (typeNameDyn node, addr) e (runCalls cs w).
Proof.
  intros He. induction 1 as [|c cs Hc _ IH]; intros w Hwf Hrep; [auto|].
  cbn [runCalls].
  destruct (evalNode_invariant (call_node c) (call_addr c) (call_args c) w Hwf) as (Hwf' & Hrep').
  apply IH; [assumption|]. apply Hrep'; [assumption|].
  intros Hk. rewrite (Hc (eq_sym Hk)). exact He.
Qed.

Lemma initialWorld_wellFormed : wellFormed initialWorld.
Proof. split; [constructor | intros k a []]. Qed.

(** C5.  When translation of a node fails with [e]: the first [compute] of
    its memoized computation runs the translator once and returns [e], every
    later [compute] returns the same [e] and runs nothing; and after any
    sequence of front-end calls that uses the node's address for no other
    node of its type, a front-end call for the node returns a nil value and
    [e] itself and does not call the script engine (nor the translator, when
    the node is still cached). *)
Theorem translation_error_is_replayed (node : Dyn) (e : error) :
  snd (translateSource node) = Err e ->
  (exists sc,
     compute (newScriptComputer node) =
       (sc, Returned (""%string, Some e), [EvTranslate node]) /\
     compute sc = (sc, Returned (""%string, Some e), [])) /\
  (forall cs addr args,
     sameIdentity node addr cs ->
     exists w' evs,
       evalNode node addr args (runCalls cs initialWorld) =
         (w', Returned (GoNil, Some e)) /\
       trace w' = (trace (runCalls cs initialWorld) ++ evs)%list /\
       Forall (fun ev => isEngineEvent ev = false) evs /\
       ((exists a, In ((typeNameDyn node, addr), a) (cache (runCalls cs initialWorld))) ->
        evs = [])) /\
  (forall p, EvalCastFunction p = evalNode (DynCastFunction (target p)) (addr p)) /\
  (forall p, EvalCaseWhenFunction p = evalNode (DynCaseWhenElseFunction (target p)) (addr p)) /\
  (forall p, EvalFunction p = evalNode (DynFunction (target p)) (addr p)) /\
  (forall p, Eval p = evalNode (DynAtom (AtomMath (target p))) (addr p)).
Proof.
  intros He. split; [|split; [|repeat split]].
  - destruct (compute_fresh node) as (sc & r & Hc & Hdone & Hres).
    destruct (Hres e He) as (Hs & Herr & ->).
    exists sc. split; [exact Hc|]. rewrite (compute_done sc Hdone), Hs, Herr. reflexivity.
  - intros cs addr args Hsame.
    destruct (runCalls_invariant node addr e cs He Hsame initialWorld
                initialWorld_wellFormed) as (Hwf & Hrep).
    { intros a []. }
    now apply evalNode_failing.
Qed.
End CacheFacts.

(** [ABS(t.c)] evaluated twice at address 7, [ABS(1)] once at address 8, and
    [ABS(t.c)] again. *)
Lemma translation_error_is_replayed_witness :
  let node := DynFunction Sample.absOfColumn in
  let cs := [mkCall node 7 []; mkCall (DynFunction Sample.absOfOne) 8 [GoInt 1];
             mkCall node 7 [GoInt 2]] in
  exists w' evs,
    evalNode (api := Sample.api) (engine := Sample.engine) node 7 [GoInt 3]
      (runCalls (api := Sample.api) (engine := Sample.engine) cs initialWorld) =
      (w', Returned (GoNil, Some ErrCannotEvalWithColumnName)) /\
    trace w' =
      (trace (runCalls (api := Sample.api) (engine := Sample.engine) cs initialWorld)
         ++ evs)%list /\
    Forall (fun ev => isEngineEvent ev = false) evs /\
    ((exists a, In ((typeNameDyn node, 7%nat), a)
                  (cache (runCalls (api := Sample.api) (engine := Sample.engine) cs
                            initialWorld))) ->
     evs = []).
Proof.
  intros node cs.
  refine (proj1 (proj2 (@translation_error_is_replayed Sample.api Sample.engine node
                          ErrCannotEvalWithColumnName eq_refl)) cs 7%nat [GoInt 3] _).
  repeat constructor; cbn; intros H; first [reflexivity | discriminate H].
Defined.

(** * Further properties of the translator *)

Section MoreTranslatorFacts.
Context `{api : AstApi}.

Lemma append_length (a b : string) :
  String.length (a ++ b) = (String.length a + String.length b)%nat.
Proof.
  induction a as [|x a IH]; [reflexivity|].
  rewrite append_cons. cbn [String.length]. now rewrite IH.
Qed.

Lemma append_not_empty_r (a b : string) : b <> ""%string -> (a ++ b)%string <> ""%string.
Proof.
  intros Hb E. apply (f_equal String.length) in E. rewrite append_length in E.
  destruct b; [congruence | cbn in E; lia].
Qed.

Lemma append_not_empty_l (a b : string) : a <> ""%string -> (a ++ b)%string <> ""%string.
Proof.
  intros Ha E. apply (f_equal String.length) in E. rewrite append_length in E.
  destruct a; [congruence | cbn in E; lia].
Qed.

(** The argument loop writes [argsText]. *)
Lemma rangeArgs_text args :
  Forall argTranslates args ->
  forall i sb,
    rangeArgs handleArg i args sb =
    ((sb ++ argsText i (List.map argScript args))%string, Nil).
Proof.
  induction 1 as [|g args Hg _ IH]; intros i sb.
  - cbn. now rewrite append_nil_r.
  - cbn -[String.append Nat.ltb]. unfold argTranslates in Hg.
    rewrite (handleArg_script g), Hg. cbn -[String.append Nat.ltb].
    rewrite IH. unfold WriteByte. destruct (0 <? i)%nat; rewrite ?append_assoc; reflexivity.
Qed.

Lemma rangeArgs_app h l1 l2 :
  forall i sb,
    rangeArgs h i (l1 ++ l2)%list sb =
    andThen (rangeArgs h i l1 sb) (rangeArgs h (i + List.length l1) l2).
Proof.
  induction l1 as [|g l1 IH]; intros i sb.
  - cbn. now rewrite Nat.add_0_r.
  - cbn -[Nat.ltb]. destruct (h g _) as [sb' [|e|p]]; cbn; auto.
    rewrite IH. now replace (S i + List.length l1)%nat with (i + S (List.length l1))%nat by lia.
Qed.

Lemma argsText_app l1 l2 :
  forall i, argsText i (l1 ++ l2)%list =
            (argsText i l1 ++ argsText (i + List.length l1) l2)%string.
Proof.
  induction l1 as [|s l1 IH]; intros i.
  - cbn. now rewrite Nat.add_0_r.
  - cbn -[Nat.ltb String.append]. rewrite IH, !append_assoc.
    now replace (S i + List.length l1)%nat with (i + S (List.length l1))%nat by lia.
Qed.

Lemma argsText_later scripts :
  forall i, (0 < i)%nat ->
    argsText i scripts = String.concat "" (List.map (fun s => ", " ++ s)%string scripts).
Proof.
  induction scripts as [|s l IH]; intros i Hi; [reflexivity|].
  cbn -[Nat.ltb String.append]. destruct (Nat.ltb_spec 0 i); [|lia].
  rewrite (IH (S i)) by lia. destruct l as [|s' l]; cbn -[String.append].
  - now rewrite !append_nil_r.
  - now rewrite !append_assoc.
Qed.

Lemma concat_cons sep s l :
  String.concat sep (s :: l) =
  (s ++ String.concat "" (List.map (fun x => sep ++ x)%string l))%string.
Proof.
  revert s; induction l as [|s' l IH]; intros s.
  - cbn. now rewrite append_nil_r.
  - change (String.concat sep (s :: s' :: l))
      with (s ++ sep ++ String.concat sep (s' :: l))%string.
    rewrite IH. cbn [List.map]. destruct l as [|s'' l]; cbn -[String.append].
    + now rewrite !append_nil_r.
    + now rewrite !append_assoc.
Qed.

Lemma argsText_concat scripts : argsText O scripts = String.concat ", " scripts.
Proof.
  destruct scripts as [|s l]; [reflexivity|].
  rewrite concat_cons. cbn -[String.append]. now rewrite (argsText_later l 1) by lia.
Qed.

(** X1.  A function call whose arguments all translate renders as the
    prefixed name, an opening parenthesis, the scripts of the arguments
    separated by a comma and a space, and a closing parenthesis. *)
Theorem function_call_rendering (Name : string) (Args : list FunctionArg) (sb : Builder) :
  Forall argTranslates Args ->
  function2script (mkFunction Name Args) sb =
  ((sb ++ TranslateFunction Name ++ "("
       ++ String.concat ", " (List.map argScript Args) ++ ")")%string, Nil).
Proof.
  intros H. rewrite function2script_eq, (rangeArgs_text Args H). cbn -[String.append].
  rewrite argsText_concat.
  unfold writeFuncName, TranslateFunction, WriteString, WriteByte.
  now rewrite !append_assoc.
Qed.

(** X2.  The first argument that does not translate ends the call: the
    result is the way that argument ended, the builder holds the call up to
    and including what that argument wrote, and the arguments after it are
    not looked at. *)
Theorem function_call_first_failure
    (Name : string) (before : list FunctionArg) (failing : FunctionArg)
    (after : list FunctionArg) (sb : Builder) :
  Forall argTranslates before ->
  snd (handleArg failing "") <> Nil ->
  function2script (mkFunction Name (before ++ failing :: after)) sb =
  ((sb ++ TranslateFunction Name ++ "("
       ++ String.concat ", " (List.map argScript (before ++ [failing])))%string,
   snd (handleArg failing "")).
Proof.
  intros Hb Hf. rewrite function2script_eq, rangeArgs_app, (rangeArgs_text before Hb).
  cbn -[String.append Nat.ltb].
  rewrite (handleArg_script failing).
  destruct (snd (handleArg failing "")) as [|e|p] eqn:Eo; [congruence| |];
    cbn -[String.append Nat.ltb];
    rewrite <- argsText_concat, List.map_app, argsText_app; cbn -[String.append Nat.ltb];
    rewrite length_map;
    unfold writeFuncName, TranslateFunction, WriteString, WriteByte;
    destruct (0 <? List.length before)%nat;
    rewrite ?append_assoc, ?append_nil_r; reflexivity.
Qed.

(** X3.  An arithmetic expression renders as the left script, a space, the
    operator, a space and the right script, and ends the way the right
    operand ends; when the left operand does not translate, the result is
    the left operand's and neither the operator nor the right operand is
    written. *)
Theorem math_rendering (Left Right : ExpressionAtom) (Operator : string)
    (tl : string) (ol : outcome) (sb : Builder) :
  exprAtom2script Left "" = (tl, ol) ->
  (ol = Nil ->
   math2script (mkMath Left Operator Right) sb =
   ((sb ++ tl ++ " " ++ Operator ++ " " ++ atomScript Right)%string,
    snd (exprAtom2script Right ""))) /\
  (ol <> Nil -> math2script (mkMath Left Operator Right) sb = ((sb ++ tl)%string, ol)).
Proof.
  intros El. split; intros Ho.
  - subst ol. cbn -[String.append]. rewrite (exprAtom2script_run Left tl Nil sb El).
    cbn -[String.append]. unfold atomScript.
    destruct (exprAtom2script Right "") as [tr o] eqn:Er.
    rewrite (exprAtom2script_run Right tr o _ Er). unfold WriteByte, WriteString.
    cbn [fst snd]. now rewrite !append_assoc.
  - cbn -[String.append]. rewrite (exprAtom2script_run Left tl ol sb El).
    destruct ol; [congruence | reflexivity | reflexivity].
Qed.

(** X4.  Around an atom that translates to [x]: a nested atom renders as
    [(x)] and a unary atom as the unary function applied to the quoted
    operator and [x]; a positional variable renders as [arguments[n]]. *)
Theorem wrapping_atoms_rendering (A : ExpressionAtom) (x : string) (sb : Builder) :
  exprAtom2script A "" = (x, Nil) ->
  exprAtom2script (AtomNested (PredicateExpressionNode (AtomPredicateNode A))) sb =
    ((sb ++ "(" ++ x ++ ")")%string, Nil) /\
  (forall Operator,
     exprAtom2script (AtomUnary Operator (DynAtom A)) sb =
     ((sb ++ FuncUnary ++ "('" ++ Operator ++ "', " ++ x ++ ")")%string, Nil)) /\
  (forall n,
     exprAtom2script (AtomVariable n) sb =
     ((sb ++ "arguments[" ++ FormatInt n ++ "]")%string, Nil)).
Proof.
  intros E. split; [|split].
  - cbn -[String.append]. rewrite (exprAtom2script_run A x Nil _ E). cbn -[String.append].
    unfold WriteByte. now rewrite !append_assoc.
  - intros Operator. cbn -[String.append]. rewrite (exprAtom2script_run A x Nil _ E).
    cbn -[String.append]. unfold WriteByte, WriteString. now rewrite !append_assoc.
  - intros n. cbn -[String.append]. unfold writeVariable, WriteByte, WriteString.
    now rewrite !append_assoc.
Qed.

(** X5.  In a tree of supported shapes, translation fails exactly when the
    walk meets a column reference, and the error is the column error wrapped
    by [errors.WithStack] once per interval literal around that reference;
    so under one interval literal or more the failure is not recognised by
    [IsEvalWithColumnErr]. *)
Theorem column_error_wrapped_per_interval (source : Dyn) :
  supported source = true ->
  isScriptSource source = true ->
  snd (translateSource source) = verdict (columnOf source) /\
  (forall n, columnOf source = Some n ->
     snd (translateSource source) = Err (withStacks n ErrCannotEvalWithColumnName) /\
     IsEvalWithColumnErr (Some (withStacks n ErrCannotEvalWithColumnName)) =
       Nat.eqb n 0) /\
  (columnOf source = None -> snd (translateSource source) = Nil).
Proof.
  intros Hs Hk. pose proof (translateSource_verdict source Hs Hk) as H.
  split; [exact H|]. split.
  - intros n En. rewrite H, En. split; [reflexivity|]. destruct n; reflexivity.
  - intros En. now rewrite H, En.
Qed.

(** X11.  A translation that returns no error never leaves the script empty. *)
Theorem translated_script_not_empty (source : Dyn) (script : string) :
  translateSource source = (script, Nil) ->
  script <> ""%string.
Proof.
  destruct translator_appendsOnly as (A & _ & _ & _ & G & _).
  destruct source as [v | [] | p | e | f | | c | c]; cbn -[String.append]; try discriminate.
  - (* math *)
    destruct m as [l op r]. cbn -[String.append].
    destruct (exprAtom2script l "") as [tl [|e|p]]; cbn -[String.append]; try discriminate.
    destruct (A r) as (t & o & E). rewrite E. intros H. inversion H; subst.
    unfold WriteByte, WriteString. apply append_not_empty_l, append_not_empty_r. discriminate.
  - (* function *)
    destruct f as [n args]. rewrite function2script_eq.
    destruct (rangeArgs _ _ _ _) as [sb1 [|e|p]]; cbn -[String.append]; try discriminate.
    intros H. inversion H; subst. apply append_not_empty_r. discriminate.
  - (* cast *)
    destruct c as [ca cs src]. rewrite castFunction2script_eq.
    destruct (castHeader _ _ _) as [sb0 [|e|p]]; cbn -[String.append]; try discriminate.
    destruct src as [[a | l o r | t] | t]; try discriminate.
    destruct (exprAtom2script a sb0) as [sb1 [|e|p]]; cbn -[String.append]; try discriminate.
    intros H. inversion H; subst. apply append_not_empty_r. discriminate.
  - (* case *)
    destruct c as [ca bs els]. rewrite caseWhenFunction2script_eq.
    destruct (caseHeader ca) as [cs [|e|p]]; try discriminate.
    destruct (rangeBranches _ _ _ _ _) as [sb1 [|e|p]]; cbn -[String.append]; try discriminate.
    assert (Hne : forall t, closeParens (List.length bs) ((sb1 ++ ", ") ++ t)%string <> ""%string).
    { intros t. rewrite closeParens_append.
      apply append_not_empty_l, append_not_empty_l, append_not_empty_r. discriminate. }
    destruct els as [e|].
    + destruct (G e) as (t & o & E). rewrite E. unfold WriteString.
      destruct o; cbn -[String.append]; try discriminate.
      intros H. inversion H; subst. apply Hne.
    + cbn -[String.append]. unfold WriteString. intros H. inversion H; subst. apply Hne.
Qed.

End MoreTranslatorFacts.

(** * Further properties of the memoized computation and the cache *)

Section MoreCacheFacts.
Context `{api : AstApi} `{engine : ScriptEngine}.

Lemma compute_fresh_slots node :
  exists sc,
    compute (newScriptComputer node) =
      (sc, firstResult (translateSource node), [EvTranslate node]) /\
    once_done sc = true /\
    sc_source sc = DynValue GoNil /\
    (sc_script sc, sc_err sc) = slotsOf (translateSource node).
Proof.
  unfold compute, computeOnce, firstResult. cbn [once_done sc_source newScriptComputer].
  destruct (translateSource node) as [sb [|e0|p]]; cbn; eexists; repeat split; reflexivity.
Qed.

(** X6.  [compute] runs the translator at most once: whatever the state of
    the computer, after a call the flag is set, a computer that had not run
    has released its source and logged one run, a computer that had run is
    unchanged, and every later call returns the stored slots and runs
    nothing. *)
Theorem compute_runs_once (sc : scriptComputer) :
  exists sc1 r1 ev1,
    compute sc = (sc1, r1, ev1) /\
    once_done sc1 = true /\
    (once_done sc = true -> sc1 = sc /\ ev1 = []) /\
    (once_done sc = false ->
       sc_source sc1 = DynValue GoNil /\ ev1 = [EvTranslate (sc_source sc)]) /\
    (forall v, r1 = Returned v -> v = (sc_script sc1, sc_err sc1)) /\
    compute sc1 = (sc1, Returned (sc_script sc1, sc_err sc1), []).
Proof.
  destruct (once_done sc) eqn:Hd.
  - rewrite (compute_done sc Hd). do 3 eexists. split; [reflexivity|].
    repeat match goal with |- _ /\ _ => split end; auto; try discriminate.
    + intros v H. now inversion H.
    + now apply compute_done.
  - unfold compute, computeOnce. rewrite Hd.
    destruct (translateSource (sc_source sc)) as [sb [|e|p]]; cbn;
      do 3 eexists; (split; [reflexivity|]);
      repeat match goal with |- _ /\ _ => split end; auto; try discriminate;
      intros v H; now inversion H.
Qed.

Lemma lruRemove_length k (c : list (key * nat)) a :
  lruFind k c = Some a -> (List.length (lruRemove k c) < List.length c)%nat.
Proof.
  assert (Hle : forall c0 : list (key * nat),
             (List.length (lruRemove k c0) <= List.length c0)%nat).
  { induction c0 as [|[k0 a0] c0 IH]; cbn; [lia|].
    destruct (decide (k = k0)); cbn; lia. }
  induction c as [|[k0 a0] c IH]; cbn; [discriminate|].
  destruct (decide (k = k0)); intros H.
  - specialize (Hle c). lia.
  - cbn. specialize (IH H). lia.
Qed.

Lemma lruRemove_keys k (c : list (key * nat)) :
  NoDup (List.map fst c) ->
  NoDup (List.map fst (lruRemove k c)) /\ ~ In k (List.map fst (lruRemove k c)).
Proof.
  induction c as [|[k0 a0] c IH]; cbn; [split; [constructor | tauto]|].
  intros H. inversion H as [|? ? Hn Hd]; subst. destruct (IH Hd) as [IH1 IH2].
  destruct (decide (k = k0)) as [->|Hne]; [auto|]. cbn. split.
  - constructor; [|assumption]. intros Hin. apply Hn.
    apply in_map_iff in Hin. destruct Hin as ([k1 a1] & E & Hin). cbn in E. subst.
    apply lruRemove_In in Hin. destruct Hin as [Hin _].
    apply in_map_iff. now exists (k0, a1).
  - intros [E|Hin]; [congruence | contradiction].
Qed.

Lemma lruFind_None_keys k (c : list (key * nat)) :
  lruFind k c = None -> ~ In k (List.map fst c).
Proof.
  intros H Hin. apply in_map_iff in Hin. destruct Hin as ([k1 a1] & E & Hin).
  cbn in E. subst. exact (lruFind_None _ _ _ H Hin).
Qed.

Lemma lruFind_head k a (c : list (key * nat)) : lruFind k ((k, a) :: c) = Some a.
Proof. cbn. destruct (decide (k = k)); congruence. Qed.

(** One call of [build], in full. *)
Lemma build_general node addr w :
  wellFormed w ->
  let k := (typeNameDyn node, addr) in
  exists w' r,
    build node addr w = (w', r) /\
    wellFormed w' /\
    (exists a, hd_error (cache w') = Some (k, a)) /\
    ((List.length (cache w) <= cacheSize)%nat ->
     (List.length (cache w') <= cacheSize)%nat) /\
    (NoDup (List.map fst (cache w)) -> NoDup (List.map fst (cache w'))) /\
    trace w' = (trace w ++ expectedRuns node (lruFind k (cache w)))%list /\
    (lruFind k (cache w) = None -> r = firstResult (translateSource node)) /\
    (forall slots, lruFind k (cache w) <> None -> cachedSlots k slots w ->
       r = Returned slots) /\
    (forall k0 slots0, cachedSlots k0 slots0 w ->
       (k0 = k -> slotsOf (translateSource node) = slots0) ->
       cachedSlots k0 slots0 w').
Proof.
  intros [Hnd Hwf] k. unfold build. fold k. unfold lruGet, lruPeekOrAdd.
  destruct (lruFind k (cache w)) as [a|] eqn:Ef.
  - (* hit *)
    pose proof (lruFind_In _ _ _ Ef) as Hin.
    destruct (Hwf _ _ Hin) as (Hlt & sc & Hsc & Hdone).
    unfold computeAt. cbn [heap next cache trace]. rewrite Hsc, (compute_done sc Hdone).
    rewrite (insert_id (heap w) a sc Hsc).
    do 2 eexists. split; [reflexivity|]. cbn [heap next cache trace].
    repeat match goal with |- _ /\ _ => split end.
    + split; cbn [cache next heap].
      * cbn. constructor; [|now apply lruRemove_NoDup].
        intros Hin'. apply in_map_iff in Hin'. destruct Hin' as ([k1 a1] & E & Hin').
        cbn in E. subst a1. apply lruRemove_In in Hin'. destruct Hin' as [Hin' Hne].
        apply Hne. exact (NoDup_snd_In _ _ _ _ Hnd Hin' Hin).
      * intros k1 a1 [E|H1]; [inversion E; subst; eauto|].
        apply lruRemove_In in H1. destruct H1 as [H1 _]. exact (Hwf _ _ H1).
    + eauto.
    + intros Hle. cbn [List.length]. pose proof (lruRemove_length k (cache w) a Ef). lia.
    + intros Hk. destruct (lruRemove_keys k (cache w) Hk). cbn. now constructor.
    + cbn. now rewrite app_nil_r.
    + discriminate.
    + intros slots _ Hr. destruct (Hr a Hin) as (sc' & Hsc' & _ & Hslots).
      rewrite Hsc in Hsc'. inversion Hsc'; subst sc'. now rewrite Hslots.
    + intros k0 slots0 Hr _ a0 H0. cbn [cache heap] in *. apply Hr.
      destruct H0 as [E|H0]; [inversion E; subst; assumption|].
      now apply lruRemove_In in H0.
  - (* miss *)
    unfold computeAt. cbn [heap next cache trace]. rewrite lookup_insert_eq.
    destruct (compute_fresh_slots node) as (sc & -> & Hdone & _ & Hslots).
    do 2 eexists. split; [reflexivity|]. cbn [heap next cache trace].
    assert (Hfresh : forall k1 a1, In (k1, a1) (cache w) -> a1 <> next w).
    { intros k1 a1 H1. destruct (Hwf _ _ H1). lia. }
    repeat match goal with |- _ /\ _ => split end.
    + split; cbn [cache next heap].
      * rewrite <- firstn_of_map. apply firstn_keeps_NoDup. cbn. constructor; [|assumption].
        intros Hin. apply in_map_iff in Hin. destruct Hin as ([k1 a1] & E & Hin).
        cbn in E. subst a1. now apply (Hfresh _ _ Hin).
      * intros k1 a1 H1. apply firstn_subset in H1. destruct H1 as [E|H1].
        -- inversion E; subst. split; [lia|]. exists sc.
           rewrite insert_insert_eq, lookup_insert_eq. auto.
        -- destruct (Hwf _ _ H1) as (Hlt & sc1 & Hsc1 & Hd1). split; [lia|].
           exists sc1. rewrite insert_insert_eq, lookup_insert_ne by lia. auto.
    + exists (next w). reflexivity.
    + intros _. unfold cacheSize. rewrite length_firstn. lia.
    + intros Hk. rewrite <- firstn_of_map. apply firstn_keeps_NoDup. cbn.
      constructor; [now apply lruFind_None_keys | assumption].
    + reflexivity.
    + reflexivity.
    + intros slots Hne. congruence.
    + intros k0 slots0 Hr Hk a0 H0. cbn [cache heap] in *. apply firstn_subset in H0.
      destruct H0 as [E|H0].
      * inversion E; subst. exists sc. rewrite insert_insert_eq, lookup_insert_eq.
        rewrite Hslots. auto.
      * destruct (Hr _ H0) as (sc1 & Hsc1 & Hd1 & He1).
        exists sc1. rewrite insert_insert_eq, lookup_insert_ne; [auto|].
        intros E. symmetry in E. now apply (Hfresh _ _ H0).
Qed.

Lemma evalNode_general node addr args w :
  wellFormed w ->
  let k := (typeNameDyn node, addr) in
  exists w' r,
    evalNode node addr args w = (w', fst (afterBuild args r)) /\
    wellFormed w' /\
    (exists a, hd_error (cache w') = Some (k, a)) /\
    ((List.length (cache w) <= cacheSize)%nat ->
     (List.length (cache w') <= cacheSize)%nat) /\
    (NoDup (List.map fst (cache w)) -> NoDup (List.map fst (cache w'))) /\
    trace w' = (trace w ++ expectedRuns node (lruFind k (cache w))
                  ++ snd (afterBuild args r))%list /\
    (lruFind k (cache w) = None -> r = firstResult (translateSource node)) /\
    (forall slots, lruFind k (cache w) <> None -> cachedSlots k slots w ->
       r = Returned slots) /\
    (forall k0 slots0, cachedSlots k0 slots0 w ->
       (k0 = k -> slotsOf (translateSource node) = slots0) ->
       cachedSlots k0 slots0 w').
Proof.
  intros Hwf k. unfold evalNode.
  destruct (build_general node addr w Hwf)
    as (w1 & r & -> & Hwf1 & Hhd & Hcap & Hkeys & Htr & Hmiss & Hhit & Hpres).
  fold k in Htr, Hmiss, Hhit, Hpres, Hhd.
  destruct r as [[s [err|]]|p]; cbn [afterBuild fst snd EvalString].
  - exists w1, (Returned (s, Some err)). cbn [afterBuild fst snd].
    repeat match goal with |- _ /\ _ => split end; auto.
    now rewrite app_nil_r.
  - eexists _, (Returned (s, None)). cbn [afterBuild fst snd].
    split; [reflexivity|]. cbn [heap next cache trace].
    repeat match goal with |- _ /\ _ => split end; auto.
    rewrite Htr. now rewrite <- app_assoc.
  - exists w1, (Panicked p). cbn [afterBuild fst snd].
    repeat match goal with |- _ /\ _ => split end; auto.
    now rewrite app_nil_r.
Qed.

Lemma runCalls_reachable cs :
  forall w,
    wellFormed w ->
    (List.length (cache w) <= cacheSize)%nat ->
    NoDup (List.map fst (cache w)) ->
    wellFormed (runCalls cs w) /\
    (List.length (cache (runCalls cs w)) <= cacheSize)%nat /\
    NoDup (List.map fst (cache (runCalls cs w))).
Proof.
  induction cs as [|c cs IH]; intros w Hwf Hcap Hk; [auto|].
  cbn [runCalls].
  destruct (evalNode_general (call_node c) (call_addr c) (call_args c) w Hwf)
    as (w1 & r & -> & Hwf1 & _ & Hcap1 & Hk1 & _).
  cbn [fst]. apply IH; auto.
Qed.

Lemma runCalls_cachedSlots node addr cs :
  sameIdentity node addr cs ->
  forall w,
    wellFormed w ->
    cachedSlots (typeNameDyn node, addr) (slotsOf (translateSource node)) w ->
    cachedSlots (typeNameDyn node, addr) (slotsOf (translateSource node)) (runCalls cs w).
Proof.
  induction 1 as [|c cs Hc _ IH]; intros w Hwf Hs; [auto|].
  cbn [runCalls].
  destruct (evalNode_general (call_node c) (call_addr c) (call_args c) w Hwf)
    as (w1 & r & -> & Hwf1 & _ & _ & _ & _ & _ & _ & Hpres).
  cbn [fst]. apply IH; [assumption|]. apply Hpres; [assumption|].
  intros Hk. now rewrite (Hc (eq_sym Hk)).
Qed.

Lemma initialWorld_reachable :
  wellFormed initialWorld /\ (List.length (cache initialWorld) <= cacheSize)%nat /\
  NoDup (List.map fst (cache initialWorld)).
Proof.
  split; [apply initialWorld_wellFormed|]. split; [cbn; lia | constructor].
Qed.

(** A front-end call for a node, after any calls that keep its identity. *)
Lemma evalNode_after_calls node addr cs args :
  sameIdentity node addr cs ->
  let w := runCalls cs initialWorld in
  let k := (typeNameDyn node, addr) in
  exists w' r,
    evalNode node addr args w = (w', fst (afterBuild args r)) /\
    trace w' = (trace w ++ expectedRuns node (lruFind k (cache w))
                  ++ snd (afterBuild args r))%list /\
    (lruFind k (cache w) = None -> r = firstResult (translateSource node)) /\
    (lruFind k (cache w) <> None -> r = Returned (slotsOf (translateSource node))).
Proof.
  intros Hsame w k.
  destruct initialWorld_reachable as (Hwf0 & Hcap0 & Hk0).
  destruct (runCalls_reachable cs initialWorld Hwf0 Hcap0 Hk0) as (Hwf & _).
  assert (Hs : cachedSlots k (slotsOf (translateSource node)) w).
  { apply runCalls_cachedSlots; [assumption | assumption |]. intros a []. }
  destruct (evalNode_general node addr args w Hwf)
    as (w' & r & He & _ & _ & _ & _ & Htr & Hmiss & Hhit & _).
  exists w', r. repeat match goal with |- _ /\ _ => split end; auto.
Qed.

(** X7.  A panic of the translator is remembered as an empty script: the
    first [compute] panics, every later [compute] returns the empty script
    and a nil error; so a front-end call that finds the node cached runs the
    script engine on the empty script, and one that does not find it panics
    again. *)
Theorem translation_panic_leaves_empty_script (node : Dyn) (p : panic) :
  snd (translateSource node) = Panic p ->
  (exists sc,
     compute (newScriptComputer node) = (sc, Panicked p, [EvTranslate node]) /\
     compute sc = (sc, Returned (""%string, None), [])) /\
  (forall cs addr args,
     sameIdentity node addr cs ->
     let w := runCalls cs initialWorld in
     exists w',
       (lruFind (typeNameDyn node, addr) (cache w) = None ->
        evalNode node addr args w = (w', Panicked p) /\
        trace w' = (trace w ++ [EvTranslate node])%list) /\
       (lruFind (typeNameDyn node, addr) (cache w) <> None ->
        evalNode node addr args w = (w', Returned (vm_Eval "" args)) /\
        trace w' = (trace w ++ [EvEngine "" args])%list)).
Proof.
  intros Hp.
  assert (Hfirst : firstResult (translateSource node) = Panicked p)
    by (unfold firstResult; now rewrite Hp).
  assert (Hslots : slotsOf (translateSource node) = (""%string, None)).
  { destruct (translateSource node) as [s o]. cbn in Hp. now subst o. }
  split.
  - destruct (compute_fresh_slots node) as (sc & Hc & Hdone & _ & Hs).
    exists sc. rewrite Hc, Hfirst. split; [reflexivity|].
    rewrite (compute_done sc Hdone). rewrite Hslots in Hs. inversion Hs as [[H1 H2]].
    now rewrite H1, H2.
  - intros cs addr args Hsame w.
    destruct (evalNode_after_calls node addr cs args Hsame) as (w' & r & He & Htr & Hmiss & Hhit).
    fold w in He, Htr, Hmiss, Hhit. exists w'. split; intros Hf.
    + rewrite (Hmiss Hf), Hfirst in He, Htr. cbn in He, Htr. rewrite Hf in Htr. auto.
    + rewrite (Hhit Hf), Hslots in He, Htr. cbn in He, Htr.
      destruct (lruFind _ _); [|congruence]. auto.
Qed.

(** X8.  A translation that succeeded is replayed: after any calls that keep
    the identity of the node, a front-end call returns what the script
    engine returns for the script a fresh translation gives, calls the
    engine once with that script and the caller's arguments, and runs the
    translator only when the node is not cached. *)
Theorem successful_translation_is_replayed (node : Dyn) (script : string) :
  translateSource node = (script, Nil) ->
  forall cs addr args,
    sameIdentity node addr cs ->
    let w := runCalls cs initialWorld in
    exists w',
      evalNode node addr args w = (w', Returned (vm_Eval script args)) /\
      trace w' =
        (trace w ++ expectedRuns node (lruFind (typeNameDyn node, addr) (cache w))
           ++ [EvEngine script args])%list.
Proof.
  intros Ht cs addr args Hsame w.
  destruct (evalNode_after_calls node addr cs args Hsame) as (w' & r & He & Htr & Hmiss & Hhit).
  fold w in He, Htr, Hmiss, Hhit. exists w'.
  assert (Hr : r = Returned (script, None)).
  { destruct (lruFind (typeNameDyn node, addr) (cache w)) eqn:Ef.
    - rewrite Hhit by congruence. now rewrite Ht.
    - rewrite Hmiss by reflexivity. unfold firstResult. now rewrite Ht. }
  subst r. cbn in He, Htr. auto.
Qed.

(** X9.  After any sequence of front-end calls the cache holds at most 1024
    entries, no key twice and no script computer twice. *)
Theorem cache_stays_within_capacity (cs : list call) :
  (List.length (cache (runCalls cs initialWorld)) <= 1024)%nat /\
  NoDup (List.map fst (cache (runCalls cs initialWorld))) /\
  NoDup (List.map snd (cache (runCalls cs initialWorld))).
Proof.
  destruct initialWorld_reachable as (Hwf0 & Hcap0 & Hk0).
  destruct (runCalls_reachable cs initialWorld Hwf0 Hcap0 Hk0) as ([Hnd _] & Hcap & Hk).
  auto.
Qed.

Lemma skipn_length_app {A} (l x : list A) : skipn (List.length l) (l ++ x)%list = x.
Proof. induction l as [|y l IH]; cbn; auto. Qed.

Lemma afterBuild_engine_only args r :
  List.filter isTranslateEvent (snd (afterBuild args r)) = [].
Proof. destruct r as [[s [e|]]|p]; reflexivity. Qed.

Lemma expectedRuns_translate_only node c :
  List.filter isTranslateEvent (expectedRuns node c) = expectedRuns node c.
Proof. destruct c; reflexivity. Qed.

(** X10.  A front-end call runs the translator exactly when the key of the
    node (its type and address) is not in the cache; after the call the key
    is the most recently used entry, and an immediate second call for the
    same node runs the translator no more. *)
Theorem translator_runs_iff_not_cached
    (cs : list call) (node : Dyn) (addr : nat) (args args2 : list GoValue) :
  let k := (typeNameDyn node, addr) in
  let w := runCalls cs initialWorld in
  let w1 := fst (evalNode node addr args w) in
  let w2 := fst (evalNode node addr args2 w1) in
  List.filter isTranslateEvent (newEvents w w1) = expectedRuns node (lruFind k (cache w)) /\
  (exists a, hd_error (cache w1) = Some (k, a)) /\
  List.filter isTranslateEvent (newEvents w1 w2) = [].
Proof.
  intros k w w1 w2.
  destruct initialWorld_reachable as (Hwf0 & Hcap0 & Hk0).
  destruct (runCalls_reachable cs initialWorld Hwf0 Hcap0 Hk0) as (Hwf & _).
  fold w in Hwf.
  destruct (evalNode_general node addr args w Hwf)
    as (w1' & r & He & Hwf1 & Hhd & _ & _ & Htr & _).
  assert (E1 : w1 = w1') by (unfold w1; now rewrite He). rewrite <- E1 in *. clear E1 w1'.
  destruct (evalNode_general node addr args2 w1 Hwf1)
    as (w2' & r2 & He2 & _ & _ & _ & _ & Htr2 & _).
  assert (E2 : w2 = w2') by (unfold w2; now rewrite He2). rewrite <- E2 in *. clear E2 w2'.
  fold k in Htr, Htr2, Hhd.
  split; [|split; [exact Hhd|]].
  - unfold newEvents. rewrite Htr, skipn_length_app, filter_app.
    now rewrite afterBuild_engine_only, expectedRuns_translate_only, app_nil_r.
  - unfold newEvents. rewrite Htr2, skipn_length_app, filter_app.
    rewrite afterBuild_engine_only, expectedRuns_translate_only, app_nil_r.
    destruct Hhd as (a & Hhd). destruct (cache w1) as [|[k1 a1] c1]; [discriminate|].
    cbn in Hhd. inversion Hhd; subst. now rewrite lruFind_head.
Qed.

End MoreCacheFacts.

(** ** Concurrent callers *)

Section RaceFacts.
Context `{api : AstApi}.


Lemma lruGet_hit k c a c' :
  lruGet k c = Some (a, c') ->
  lruFind k c = Some a /\ c' = (k, a) :: lruRemove k c.
Proof.
  unfold lruGet. destruct (lruFind k c); [|discriminate].
  intros E. inversion E; subst. auto.
Qed.

Lemma lruGet_miss k c : lruGet k c = None -> lruFind k c = None.
Proof. unfold lruGet. destruct (lruFind k c); [discriminate|auto]. Qed.










End RaceFacts.



(** * Properties of the configuration model *)

Module ConfigFacts.
Import Config.

Lemma string_of_uint_digits d : allDigits (NilEmpty.string_of_uint d) = true.
Proof. induction d; cbn; auto. Qed.

Lemma allDigits_uint s :
  allDigits s = true -> exists d, NilEmpty.uint_of_string s = Some d.
Proof.
  induction s as [|c s IH]; cbn -[isDigit]; [eauto|].
  intros H. apply andb_prop in H. destruct H as [Hc Hs].
  destruct (IH Hs) as (d & ->). unfold isDigit in Hc.
  destruct c as [[] [] [] [] [] [] [] []]; try discriminate Hc; cbn; eauto.
Qed.

Lemma spanDigits_run a c rest :
  allDigits a = true -> isDigit c = false ->
  spanDigits (a ++ String c rest) = (a, String c rest).
Proof.
  intros Ha Hc. induction a as [|x a IH].
  - rewrite append_nil_l. cbn -[isDigit]. now rewrite Hc.
  - cbn -[isDigit] in Ha. apply andb_prop in Ha. destruct Ha as [Hx Ha].
    rewrite append_cons. cbn -[isDigit]. now rewrite Hx, (IH Ha).
Qed.

Lemma spanDigits_all a : allDigits a = true -> spanDigits a = (a, ""%string).
Proof.
  induction a as [|x a IH]; cbn -[isDigit]; [reflexivity|].
  intros H. apply andb_prop in H. destruct H as [Hx Ha]. now rewrite Hx, (IH Ha).
Qed.

Lemma spanDigits_split s d r :
  spanDigits s = (d, r) ->
  s = (d ++ r)%string /\ allDigits d = true /\
  (r = ""%string \/ exists c r', r = String c r' /\ isDigit c = false).
Proof.
  revert d r. induction s as [|c s IH]; cbn -[isDigit]; intros d r H.
  - inversion H; subst. auto.
  - destruct (isDigit c) eqn:Hc.
    + destruct (spanDigits s) as [d0 r0]. inversion H; subst.
      destruct (IH d0 r eq_refl) as (-> & Hd & Hr).
      rewrite append_cons. cbn -[isDigit]. rewrite Hc. auto.
    + inversion H; subst. split; [reflexivity|]. split; [reflexivity|]. right. eauto.
Qed.

Lemma letter_not_digit a b c :
  isOneOf a b c = true -> isDigit a = false -> isDigit b = false -> isDigit c = false.
Proof.
  unfold isOneOf. intros H Ha Hb. apply orb_prop in H.
  destruct H as [H|H]; apply Ascii.eqb_eq in H; now subst.
Qed.

Lemma weightSubmatch_form s a b :
  weightForm s a b -> weightSubmatch s = Some (a, b).
Proof.
  intros (c1 & c2 & -> & H1 & H2 & Ha & Hna & Hb & Hnb).
  unfold weightSubmatch. rewrite H1.
  rewrite (spanDigits_run a c2 b Ha (letter_not_digit _ _ _ H2 eq_refl eq_refl)).
  destruct a as [|x a]; [congruence|]. rewrite H2, (spanDigits_all b Hb).
  destruct b as [|y b]; [congruence | reflexivity].
Qed.

Lemma weightSubmatch_sound s a b :
  weightSubmatch s = Some (a, b) -> weightForm s a b.
Proof.
  unfold weightSubmatch. destruct s as [|c1 rest]; [discriminate|].
  destruct (isOneOf "r" "R" c1) eqn:H1; [|discriminate].
  destruct (spanDigits rest) as [d r] eqn:Es.
  destruct (spanDigits_split _ _ _ Es) as (-> & Hd & _).
  destruct d as [|x d]; [discriminate|]. destruct r as [|c2 rest']; [discriminate|].
  destruct (isOneOf "w" "W" c2) eqn:H2; [|discriminate].
  destruct (spanDigits rest') as [e r'] eqn:Es'.
  destruct (spanDigits_split _ _ _ Es') as (-> & He & _).
  destruct e as [|y e]; [discriminate|]. destruct r' as [|? ?]; [|discriminate].
  intros H. inversion H; subst. exists c1, c2. rewrite append_nil_r.
  repeat match goal with |- _ /\ _ => split end; auto; discriminate.
Qed.

Lemma digitsValue_nonneg s : (0 <= digitsValue s)%Z.
Proof. unfold digitsValue. destruct (NilEmpty.uint_of_string s); lia. Qed.

(** [strconv.Atoi] on a non-empty run of digits. *)
Lemma Atoi_digits a :
  allDigits a = true -> a <> ""%string ->
  Atoi a =
  if (digitsValue a <=? maxInt)%Z then inl (digitsValue a)
  else inr (NumError "Atoi" a ErrRange).
Proof.
  intros Ha Hne. pose proof (digitsValue_nonneg a) as Hpos. unfold digitsValue in *.
  destruct (allDigits_uint a Ha) as (d & Hd). rewrite Hd in *.
  unfold Atoi. destruct a as [|c a]; [congruence|].
  assert (Hc : isDigit c = true) by (cbn -[isDigit] in Ha; now apply andb_prop in Ha).
  assert (Hsign : (let (neg, body) :=
             match String c a with
             | String "-" r => (true, r)
             | String "+" r => (false, r)
             | _ => (false, String c a)
             end in (neg, body)) = (false, String c a)).
  { destruct c as [[] [] [] [] [] [] [] []]; try discriminate Hc; reflexivity. }
  destruct (match String c a with
            | String "-" r => (true, r)
            | String "+" r => (false, r)
            | _ => (false, String c a)
            end) as [neg body].
  inversion Hsign; subst. rewrite Hd.
  replace (minInt <=? Z.of_N (N.of_uint d))%Z with true
    by (symmetry; apply Z.leb_le; unfold minInt; lia).
  reflexivity.
Qed.

Lemma FormatInt_digits n :
  (0 <= n)%Z ->
  allDigits (FormatInt n) = true /\ FormatInt n <> ""%string /\ digitsValue (FormatInt n) = n.
Proof.
  intros Hn. unfold FormatInt, digitsValue.
  assert (E : Z.to_int n = Decimal.Pos (N.to_uint (Z.to_N n)))
    by (destruct n; [reflexivity | reflexivity | lia]).
  rewrite E. cbn [NilZero.string_of_int].
  assert (Hnil : N.to_uint (Z.to_N n) <> Decimal.Nil).
  { destruct (Z.to_N n) as [|p]; cbn; [discriminate|].
    apply DecimalPos.Unsigned.to_uint_nonnil. }
  assert (Es : NilZero.string_of_uint (N.to_uint (Z.to_N n)) =
               NilEmpty.string_of_uint (N.to_uint (Z.to_N n))).
  { destruct (N.to_uint (Z.to_N n)); [congruence | reflexivity ..]. }
  rewrite Es. split; [apply string_of_uint_digits|]. split.
  - destruct (N.to_uint (Z.to_N n)); [congruence | discriminate ..].
  - rewrite NilEmpty.usu, DecimalN.Unsigned.of_to. lia.
Qed.

(** X12.  A weight written as the letter [r] or [R], the read weight in
    decimal, the letter [w] or [W] and the write weight in decimal is read
    back as these two weights, for all weights an [int] holds. *)
Theorem weight_round_trip (d : Node) (c1 c2 : ascii) (r w : Z) :
  (0 <= r <= maxInt)%Z -> (0 <= w <= maxInt)%Z ->
  isOneOf "r" "R" c1 = true -> isOneOf "w" "W" c2 = true ->
  Weight d = String c1 (FormatInt r ++ String c2 (FormatInt w)) ->
  GetReadAndWriteWeight d = (r, w, None).
Proof.
  intros Hr Hw H1 H2 E.
  destruct (FormatInt_digits r) as (Dr & Nr & Vr); [lia|].
  destruct (FormatInt_digits w) as (Dw & Nw & Vw); [lia|].
  unfold GetReadAndWriteWeight. rewrite E.
  rewrite (weightSubmatch_form _ (FormatInt r) (FormatInt w)).
  - rewrite (Atoi_digits _ Dr Nr), (Atoi_digits _ Dw Nw), Vr, Vw.
    destruct (Z.leb_spec r maxInt); [|lia]. destruct (Z.leb_spec w maxInt); [|lia].
    reflexivity.
  - exists c1, c2. auto 10.
Qed.

(** X13.  What [GetReadAndWriteWeight] accepts: it returns weights only for
    a string of the form letter, digits, letter, digits, and then the
    numbers the two runs of digits denote, both within [0, maxInt]; it
    returns the format error exactly for the strings not of that form; and
    with any error both weights are zero. *)
Theorem weight_result_characterised (d : Node) :
  (forall r w,
     GetReadAndWriteWeight d = (r, w, None) ->
     exists a b,
       weightForm (Weight d) a b /\ r = digitsValue a /\ w = digitsValue b /\
       (0 <= r <= maxInt)%Z /\ (0 <= w <= maxInt)%Z) /\
  (GetReadAndWriteWeight d = (0%Z, 0%Z, Some (CfgNew "weight config should be r10w10")) <->
   ~ exists a b, weightForm (Weight d) a b) /\
  (forall r w e, GetReadAndWriteWeight d = (r, w, Some e) -> r = 0%Z /\ w = 0%Z).
Proof.
  unfold GetReadAndWriteWeight.
  destruct (weightSubmatch (Weight d)) as [[a b]|] eqn:Em.
  - pose proof (weightSubmatch_sound _ _ _ Em) as Hf.
    destruct Hf as (c1 & c2 & Es & H1 & H2 & Da & Na & Db & Nb).
    assert (Hf : weightForm (Weight d) a b) by (exists c1, c2; auto 10).
    rewrite (Atoi_digits a Da Na), (Atoi_digits b Db Nb).
    pose proof (digitsValue_nonneg a). pose proof (digitsValue_nonneg b).
    destruct (Z.leb_spec (digitsValue a) maxInt); destruct (Z.leb_spec (digitsValue b) maxInt);
      (split; [|split]);
      try (intros r w H'; inversion H'; subst; exists a, b; repeat split; auto; lia);
      try (intros r w H'; discriminate H');
      try (split; [intros H'; discriminate H' | intros H'; exfalso; apply H'; eauto]);
      try (intros r w e H'; inversion H'; auto).
  - split; [intros r w H'; discriminate H'|]. split.
    + split; [|reflexivity]. intros _ (a & b & Hf).
      rewrite (weightSubmatch_form _ _ _ Hf) in Em. discriminate.
    + intros r w e H'. inversion H'; auto.
Qed.

(** X14.  A weight of the right form whose read weight does not fit an [int]
    is refused with the range error of [strconv.Atoi] on the read digits,
    not with the format error; likewise for the write weight when the read
    weight fits. *)
Theorem weight_overflow (d : Node) (a b : string) :
  weightForm (Weight d) a b ->
  ((maxInt < digitsValue a)%Z ->
   GetReadAndWriteWeight d = (0%Z, 0%Z, Some (NumError "Atoi" a ErrRange))) /\
  ((digitsValue a <= maxInt)%Z -> (maxInt < digitsValue b)%Z ->
   GetReadAndWriteWeight d = (0%Z, 0%Z, Some (NumError "Atoi" b ErrRange))).
Proof.
  intros Hf. unfold GetReadAndWriteWeight. rewrite (weightSubmatch_form _ _ _ Hf).
  destruct Hf as (c1 & c2 & Es & H1 & H2 & Da & Na & Db & Nb).
  rewrite (Atoi_digits a Da Na), (Atoi_digits b Db Nb).
  split.
  - intros Ha. destruct (Z.leb_spec (digitsValue a) maxInt); [lia | reflexivity].
  - intros Ha Hb. destruct (Z.leb_spec (digitsValue a) maxInt); [|lia].
    destruct (Z.leb_spec (digitsValue b) maxInt); [lia | reflexivity].
Qed.

Lemma lowerByte_upperByte c : lowerByte (upperByte c) = lowerByte c.
Proof. destruct c as [[] [] [] [] [] [] [] []]; reflexivity. Qed.

Lemma upperByte_ascii c :
  (nat_of_ascii c <? 128)%nat = true -> (nat_of_ascii (upperByte c) <? 128)%nat = true.
Proof. destruct c as [[] [] [] [] [] [] [] []]; intros H; try discriminate H; reflexivity. Qed.

Lemma asciiLower_asciiUpper s : asciiLower (asciiUpper s) = asciiLower s.
Proof. induction s as [|c s IH]; cbn -[lowerByte upperByte]; [reflexivity|]. now rewrite lowerByte_upperByte, IH. Qed.

Lemma isASCII_asciiUpper s : isASCII s = true -> isASCII (asciiUpper s) = true.
Proof.
  induction s as [|c s IH]; cbn -[upperByte nat_of_ascii Nat.ltb]; [reflexivity|].
  intros H. apply andb_prop in H. destruct H as [Hc Hs].
  now rewrite (upperByte_ascii c Hc), (IH Hs).
Qed.

(** X15.  For ASCII text, [UnmarshalText] looks at the text up to ASCII case
    only: it sets the target to MySQL exactly when the lower-cased text is
    [mysql] and to Http exactly when it is [http], with a nil error; any
    other text returns an error that carries the text as given and leaves
    the target as it was; the upper-cased text gives the same target; and a
    nil target returns an error whatever the text. *)
Theorem protocol_type_case_insensitive
    (bytes_ToLower : string -> string) (old : ProtocolType) (text : string) :
  (forall s, isASCII s = true -> bytes_ToLower s = asciiLower s) ->
  isASCII text = true ->
  (asciiLower text = "mysql"%string ->
   UnmarshalText bytes_ToLower (Some old) text = (Some MySQL, None)) /\
  (asciiLower text = "http"%string ->
   UnmarshalText bytes_ToLower (Some old) text = (Some Http, None)) /\
  (asciiLower text <> "mysql"%string -> asciiLower text <> "http"%string ->
   UnmarshalText bytes_ToLower (Some old) text =
   (Some old, Some (CfgErrorf "unrecognized protocol type: %q" text))) /\
  fst (UnmarshalText bytes_ToLower (Some old) (asciiUpper text)) =
    fst (UnmarshalText bytes_ToLower (Some old) text) /\
  UnmarshalText bytes_ToLower None text =
    (None, Some (CfgNew "can't unmarshal a nil *ProtocolType")).
Proof.
  intros Hlow Ht.
  assert (Hup : bytes_ToLower (asciiUpper text) = bytes_ToLower text).
  { rewrite (Hlow _ (isASCII_asciiUpper _ Ht)), (Hlow _ Ht). apply asciiLower_asciiUpper. }
  unfold UnmarshalText, unmarshalText. rewrite Hup, (Hlow _ Ht).
  repeat match goal with |- _ /\ _ => split end.
  - now intros ->.
  - now intros ->.
  - intros H1 H2. apply String.eqb_neq in H1, H2. now rewrite H1, H2.
  - destruct (String.eqb (asciiLower text) "mysql"); [reflexivity|].
    destruct (String.eqb (asciiLower text) "http"); reflexivity.
  - reflexivity.
Qed.

End ConfigFacts.

(** ** The further properties at concrete inputs *)

(** [IF(x = 1, 1, 2)] *)
Lemma function_call_rendering_witness :
  function2script (api := Sample.api) Cases.ifCall "" =
  ("$IF(x == 1, 1, 2)"%string, Nil).
Proof.
  refine (@function_call_rendering Sample.api "IF"%string
            [Sample.compareArg Ceq; Sample.constArg (GoInt 1); Sample.constArg (GoInt 2)]
            ""%string _).
  repeat constructor.
Defined.

(** [CONCAT(1, t.c, 2)] stops at the column. *)
Lemma function_call_first_failure_witness :
  function2script (api := Sample.api) Cases.concatWithColumn "" =
  ("$CONCAT(1, "%string, Err ErrCannotEvalWithColumnName).
Proof.
  refine (@function_call_first_failure Sample.api "CONCAT"%string
            [Sample.constArg (GoInt 1)] (Sample.exprArg Sample.column)
            [Sample.constArg (GoInt 2)] ""%string _ _).
  - repeat constructor.
  - discriminate.
Defined.

(** [2 + 1], and an aggregate call on the left. *)
Lemma math_rendering_witness :
  math2script (api := Sample.api)
    (mkMath (AtomConstant (GoInt 2)) "+" (AtomConstant (GoInt 1))) "" =
    ("2 + 1"%string, Nil) /\
  math2script (api := Sample.api) Sample.aggrPlusColumn "" =
    (""%string, Err (ErrNew "aggr function should not appear here")).
Proof.
  split.
  - exact (proj1 (@math_rendering Sample.api (AtomConstant (GoInt 2)) (AtomConstant (GoInt 1))
                    "+"%string "2"%string Nil ""%string eq_refl) eq_refl).
  - refine (proj2 (@math_rendering Sample.api (AtomFunctionCall DynAggrFunction)
                     Sample.column "+"%string ""%string
                     (Err (ErrNew "aggr function should not appear here")) ""%string
                     eq_refl) _).
    discriminate.
Defined.

(** [(x)] and [-x]. *)
Lemma wrapping_atoms_rendering_witness :
  exprAtom2script (api := Sample.api)
    (AtomNested (Sample.atomOf Sample.atomX)) "" = ("(x)"%string, Nil) /\
  exprAtom2script (api := Sample.api) (AtomUnary "-" (DynAtom Sample.atomX)) "" =
    ("$UNARY('-', x)"%string, Nil).
Proof.
  pose proof (@wrapping_atoms_rendering Sample.api Sample.atomX "x"%string ""%string eq_refl)
    as (Hn & Hu & _).
  split; [exact Hn | exact (Hu "-"%string)].
Defined.

(** [DATE_ADD(1, INTERVAL t.c DAY)]: the column error comes back wrapped. *)
Lemma column_error_wrapped_per_interval_witness :
  snd (translateSource (api := Sample.api) (DynFunction Cases.dateAddColumn)) =
    Err (ErrWithStack ErrCannotEvalWithColumnName) /\
  IsEvalWithColumnErr (Some (ErrWithStack ErrCannotEvalWithColumnName)) = false.
Proof.
  exact (proj1 (proj2 (@column_error_wrapped_per_interval Sample.api
                         (DynFunction Cases.dateAddColumn) eq_refl eq_refl))
           1%nat eq_refl).
Defined.

(** A fresh computer for [ABS(1)]. *)
Lemma compute_runs_once_witness :
  exists sc1 r1 ev1,
    compute (api := Sample.api) (newScriptComputer (DynFunction Sample.absOfOne)) =
      (sc1, r1, ev1) /\
    once_done sc1 = true /\
    (once_done (newScriptComputer (DynFunction Sample.absOfOne)) = true ->
     sc1 = newScriptComputer (DynFunction Sample.absOfOne) /\ ev1 = []) /\
    (once_done (newScriptComputer (DynFunction Sample.absOfOne)) = false ->
     sc_source sc1 = DynValue GoNil /\
     ev1 = [EvTranslate (sc_source (newScriptComputer (DynFunction Sample.absOfOne)))]) /\
    (forall v, r1 = Returned v -> v = (sc_script sc1, sc_err sc1)) /\
    compute (api := Sample.api) sc1 = (sc1, Returned (sc_script sc1, sc_err sc1), []).
Proof.
  exact (@compute_runs_once Sample.api (newScriptComputer (DynFunction Sample.absOfOne))).
Defined.

(** [ABS((1 = 2))] evaluated at address 3: the first call panics, and the
    call after it finds the node cached and runs the engine on the empty
    script. *)
Lemma translation_panic_leaves_empty_script_witness :
  let node := DynFunction Cases.absOfNested in
  let w1 := runCalls (api := Sample.api) (engine := Sample.engine)
              [mkCall node 3 []] initialWorld in
  (exists w',
     evalNode (api := Sample.api) (engine := Sample.engine) node 3 [] initialWorld =
       (w', Panicked PanicTypeAssertion) /\
     trace w' = (trace initialWorld ++ [EvTranslate node])%list) /\
  lruFind (typeNameDyn node, 3%nat) (cache w1) <> None /\
  (exists w',
     evalNode (api := Sample.api) (engine := Sample.engine) node 3 [GoInt 1] w1 =
       (w', Returned (GoString "", None)) /\
     trace w' = (trace w1 ++ [EvEngine "" [GoInt 1]])%list).
Proof.
  intros node w1.
  pose proof (proj2 (@translation_panic_leaves_empty_script Sample.api Sample.engine node
                       PanicTypeAssertion eq_refl)) as H.
  assert (Hcached : lruFind (typeNameDyn node, 3%nat) (cache w1) <> None)
    by (vm_compute; discriminate).
  split; [|split; [exact Hcached|]].
  - destruct (H [] 3%nat [] ltac:(constructor)) as (w' & Hmiss & _).
    exists w'. apply Hmiss. reflexivity.
  - destruct (H [mkCall node 3 []] 3%nat [GoInt 1] ltac:(repeat constructor))
      as (w' & _ & Hhit).
    exists w'. apply Hhit. exact Hcached.
Defined.

(** [IF(x = 1, 1, 2)] evaluated at address 5 after a call at address 6. *)
Lemma successful_translation_is_replayed_witness :
  let node := DynFunction Cases.ifCall in
  let cs := [mkCall (DynFunction Sample.absOfOne) 6 []] in
  let w := runCalls (api := Sample.api) (engine := Sample.engine) cs initialWorld in
  exists w',
    evalNode (api := Sample.api) (engine := Sample.engine) node 5 [GoInt 1] w =
      (w', Returned (vm_Eval (ScriptEngine := Sample.engine) "$IF(x == 1, 1, 2)" [GoInt 1])) /\
    trace w' =
      (trace w ++ expectedRuns node (lruFind (typeNameDyn node, 5%nat) (cache w))
         ++ [EvEngine "$IF(x == 1, 1, 2)" [GoInt 1]])%list.
Proof.
  intros node cs w.
  refine (@successful_translation_is_replayed Sample.api Sample.engine node
            "$IF(x == 1, 1, 2)"%string eq_refl cs 5%nat [GoInt 1] _).
  repeat constructor. cbn. intros H. discriminate H.
Defined.

(** The script of [IF(x = 1, 1, 2)]. *)
Lemma translated_script_not_empty_witness :
  "$IF(x == 1, 1, 2)"%string <> ""%string.
Proof.
  exact (@translated_script_not_empty Sample.api (DynFunction Cases.ifCall)
           "$IF(x == 1, 1, 2)"%string eq_refl).
Defined.

(** The default weight [r10w10]. *)
Lemma weight_round_trip_witness :
  Config.GetReadAndWriteWeight (Config.nodeWithWeight "r10w10") = (10%Z, 10%Z, None).
Proof.
  refine (ConfigFacts.weight_round_trip (Config.nodeWithWeight "r10w10")
            "r"%char "w"%char 10 10 _ _ eq_refl eq_refl eq_refl);
    unfold Config.maxInt; lia.
Defined.

(** [R7w03] is read as 7 and 3; [10] is not of the form. *)
Lemma weight_result_characterised_witness :
  (exists a b,
     Config.weightForm "R7w03" a b /\ 7%Z = Config.digitsValue a /\
     3%Z = Config.digitsValue b /\
     (0 <= 7 <= Config.maxInt)%Z /\ (0 <= 3 <= Config.maxInt)%Z) /\
  Config.GetReadAndWriteWeight (Config.nodeWithWeight "10") =
    (0%Z, 0%Z, Some (Config.CfgNew "weight config should be r10w10")).
Proof.
  split.
  - exact (proj1 (ConfigFacts.weight_result_characterised (Config.nodeWithWeight "R7w03"))
             7%Z 3%Z eq_refl).
  - apply (proj1 (proj2 (ConfigFacts.weight_result_characterised (Config.nodeWithWeight "10")))).
    intros (a & b & c1 & c2 & E & H1 & _). cbn in E. inversion E; subst. discriminate H1.
Defined.

(** A read weight one above the largest [int]. *)
Lemma weight_overflow_witness :
  Config.GetReadAndWriteWeight (Config.nodeWithWeight "r9223372036854775808w1") =
  (0%Z, 0%Z, Some (Config.NumError "Atoi" "9223372036854775808" Config.ErrRange)).
Proof.
  refine (proj1 (ConfigFacts.weight_overflow
                   (Config.nodeWithWeight "r9223372036854775808w1")
                   "9223372036854775808"%string "1"%string _) eq_refl).
  exists "r"%char, "w"%char.
  repeat match goal with |- _ /\ _ => split end; try reflexivity; discriminate.
Defined.

(** [MySQL] and [HTTPS] with ASCII lowering for [bytes.ToLower]. *)
Lemma protocol_type_case_insensitive_witness :
  Config.UnmarshalText Config.asciiLower (Some Config.Http) "MySQL" =
    (Some Config.MySQL, None) /\
  Config.UnmarshalText Config.asciiLower (Some Config.Http) "HTTPS" =
    (Some Config.Http,
     Some (Config.CfgErrorf "unrecognized protocol type: %q" "HTTPS")).
Proof.
  split.
  - exact (proj1 (ConfigFacts.protocol_type_case_insensitive Config.asciiLower Config.Http
                    "MySQL"%string (fun s _ => eq_refl) eq_refl) eq_refl).
  - refine (proj1 (proj2 (proj2 (ConfigFacts.protocol_type_case_insensitive
                     Config.asciiLower Config.Http "HTTPS"%string (fun s _ => eq_refl)
                     eq_refl))) _ _); discriminate.
Defined.
